(** * Batch resume parsing: the bounded-concurrency batch orchestrator

    A shallow embedding of [app/models.py], [app/helpers.py] and
    [app/main.py].  The asyncio tasks of a batch are modelled as an
    interleaving transition system: every task is a small state machine
    whose states are the suspension points of [process_single_resume];
    an event resumes one task, which then runs without interruption to
    its next suspension point (cooperative scheduling).  The external
    collaborators (PDF loader, vector store, language model) are opaque:
    what they return, or the fault they raise, is carried by the event
    that resumes the awaiting task.

    Any task that is ready may be run next, so every order in which the
    event loop can serve the tasks is covered.  The file system is a map
    from paths to contents on which opening and writing a file succeed.
    The tasks of one batch are considered; cancellation of a task is not
    modelled. *)

From Stdlib Require Import ZArith String Ascii List Bool Lia.
From stdpp Require Import base option list gmap strings fin_maps.

Local Open Scope Z_scope.
Local Open Scope string_scope.
Local Open Scope list_scope.

(** ** Data model ([app/models.py]) *)

Record Education := mkEducation {
  degree : option string;
  institution : option string;
  year : option string
}.

Record Experience := mkExperience {
  role : option string;
  company : option string;
  duration : option string;
  description : option string
}.

Record ResumeData := mkResumeData {
  full_name : option string;
  email : option string;
  phone : option string;
  skills : list string;
  experience : list Experience;
  education : list Education;
  summary : option string
}.

(** ** Values manipulated by [app/main.py] and [app/helpers.py] *)

(** A FastAPI [UploadFile]: its name and the bytes of its stream. *)
Record UploadFile := mkUploadFile {
  filename : string;
  file : list Byte.byte
}.

(** A langchain [Document]. *)
Record Document := mkDocument {
  page_content : string;
  metadata : string
}.

(** What a key of the [ResumeState] dictionary can hold. *)
Inductive value :=
| VNone
| VStr (s : string)
| VChunks (l : list string)
| VData (d : ResumeData).

(** Exceptions: FastAPI's [HTTPException] and any other [Exception],
    the latter identified by its [str(e)]. *)
Inductive exn :=
| HTTPException (status_code : Z) (detail : string)
| Exception (msg : string).

Definition str (e : exn) : string :=
  match e with
  | HTTPException _ d => d
  | Exception m => m
  end.

(** How a call of [process_single_resume] ends. *)
Inductive outcome :=
| Returned (d : ResumeData)
| Raised (e : exn).

(** Calls to, and replies of, the collaborators awaited by the stages. *)
Inductive call :=
| CallLoad (pdf_path : option value)
| CallIndex (documents : list Document)
| CallExtract (context : string).

Inductive reply :=
| LoadReturn (pages : list Document)
| IndexAck
| ExtractReturn (result : ResumeData)
| Fault (msg : string).

(** Python's [s.endswith(suffix)]. *)
Definition endswith (s suffix : string) : bool :=
  let n := String.length s in
  let m := String.length suffix in
  (m <=? n)%nat && String.eqb (substring (n - m) m s) suffix.

Definition newline : string := String (ascii_of_nat 10) EmptyString.

(** Python's [sep.join(l)]. *)
Definition join (sep : string) (l : list string) : string := String.concat sep l.

(** [temp_path = f"temp_{file.filename}"] *)
Definition temp_path (f : UploadFile) : string := "temp_" +:+ filename f.

(** The dictionary built at the start of the [async with] body. *)
Definition initial_state (path : string) : gmap string value :=
  <["pdf_path" := VStr path]>
  (<["text_chunks" := VChunks []]>
  (<["parsed_data" := VNone]>
  (<["question" := VStr ""]>
  (<["answer" := VStr ""]> ∅)))).

(** [state.update(u)]: the keys of [u] override those of [state]. *)
Definition dict_update (state u : gmap string value) : gmap string value := u ∪ state.

(** ** The stages ([app/helpers.py]) *)

(** [ingest_pdf], first await: the loader is built from [state["pdf_path"]]
    inside the worker thread. *)
Definition ingest_pdf_load (state : gmap string value) : call :=
  CallLoad (state !! "pdf_path").

(** [ingest_pdf], the update returned after [add_documents]. *)
Definition ingest_pdf_result (splits : list Document) : gmap string value :=
  {[ "text_chunks" := VChunks (map page_content splits) ]}.

(** [parse_resume], up to the await of [chain.ainvoke]: the prompt
    context is the chunks joined by newlines; a missing key raises
    [KeyError]. *)
Definition parse_resume_call (state : gmap string value) : exn + call :=
  match state !! "text_chunks" with
  | Some (VChunks chunks) => inr (CallExtract (join newline chunks))
  | _ => inl (Exception "'text_chunks'")
  end.

(** [parse_resume], the update it returns. *)
Definition parse_resume_result (result : ResumeData) : gmap string value :=
  {[ "parsed_data" := VData result ]}.

(** [parse_result["parsed_data"]] *)
Definition parsed_data_of (parse_result : gmap string value) : exn + ResumeData :=
  match parse_result !! "parsed_data" with
  | Some (VData d) => inr d
  | _ => inl (Exception "'parsed_data'")
  end.


Definition workflow_nodes : list string := ["ingest"; "parse"; "rag_query"].





(** ** Tasks, the gate and the system state ([app/main.py]) *)

(** The suspension points of [process_single_resume]. *)
Inductive pc :=
| Created                               (* coroutine object, not yet run *)
| WaitSlot                              (* suspended in [semaphore.acquire] *)
| Woken                                 (* handed a slot, not yet resumed *)
| AwaitLoad                             (* [await asyncio.to_thread(_load)] *)
| AwaitIndex (splits : list Document)   (* [await asyncio.to_thread(add_documents)] *)
| AwaitExtract                          (* [await chain.ainvoke(...)] *)
| Done (o : outcome).

(** One call of [process_single_resume]: its argument, where it stands,
    and its local [state] dictionary once it is built. *)
Record task := mkTask {
  t_file : UploadFile;
  t_pc : pc;
  t_state : option (gmap string value)
}.

(** Modelled from the spec: [asyncio.Semaphore] is a library class that is
    not under src/.  Following the AdmissionGate contract, the gate is a
    counter of available slots and a FIFO queue of the waiting jobs. *)
Record Semaphore := mkSemaphore {
  sem_value : Z;
  sem_waiters : list nat
}.

(** What the system does, in the order it does it. *)
Inductive action :=
| ACreate (i : nat) (path : string)     (* [open(temp_path, "wb")] and the copy *)
| ARequest (i : nat)                    (* [semaphore.acquire()] called *)
| AAcquire (i : nat)                    (* [semaphore.acquire()] returned *)
| AInvoke (i : nat) (c : call)          (* a collaborator is called *)
| AResume (i : nat) (r : reply)         (* the awaited collaborator answered *)
| ARelease (i : nat)                    (* [semaphore.release()] *)
| ARemove (i : nat) (path : string)     (* [os.remove(temp_path)] *)
| AOutcome (i : nat) (o : outcome).     (* the coroutine returned or raised *)

Definition owner (a : action) : nat :=
  match a with
  | ACreate i _ | ARequest i | AAcquire i | AInvoke i _ | AResume i _
  | ARelease i | ARemove i _ | AOutcome i _ => i
  end.

Record system := mkSystem {
  tasks : list task;
  semaphore : Semaphore;
  fs : gmap string (list Byte.byte);
  log : list action
}.

Definition emit (acts : list action) (s : system) : system :=
  mkSystem (tasks s) (semaphore s) (fs s) (log s ++ acts).

Definition put_task (i : nat) (t : task) (s : system) : system :=
  mkSystem (<[i := t]> (tasks s)) (semaphore s) (fs s) (log s).

Definition put_sem (sem : Semaphore) (s : system) : system :=
  mkSystem (tasks s) sem (fs s) (log s).

Definition put_fs (m : gmap string (list Byte.byte)) (s : system) : system :=
  mkSystem (tasks s) (semaphore s) m (log s).

Definition with_pc (p : pc) (t : task) : task := mkTask (t_file t) p (t_state t).

(** Modelled from the spec: the gate is taken when a slot is available
    and nobody is queued before the caller. *)
Definition locked (sem : Semaphore) : bool :=
  (sem_value sem =? 0)%Z || negb (bool_decide (sem_waiters sem = [])).

(** Modelled from the spec: the first waiter, if there is one, is handed
    the slot and becomes eligible to proceed. *)
Definition wake_up_next (s : system) : system :=
  match sem_waiters (semaphore s) with
  | [] => s
  | w :: ws =>
      mkSystem (alter (with_pc Woken) w (tasks s))
               (mkSemaphore (sem_value (semaphore s) - 1) ws) (fs s) (log s)
  end.

(** Modelled from the spec: [release] increments the counter and wakes
    one waiter. *)
Definition release (s : system) : system :=
  wake_up_next
    (put_sem (mkSemaphore (sem_value (semaphore s) + 1) (sem_waiters (semaphore s))) s).

Definition CONCURRENCY_LIMIT : Z := 5.

Definition not_a_pdf (f : UploadFile) : exn :=
  HTTPException 400 ("File " +:+ filename f +:+ " is not a PDF").

Definition processing_error (f : UploadFile) (e : exn) : exn :=
  HTTPException 500 ("Error processing " +:+ filename f +:+ ": " +:+ str e).

Definition batch_limit_exceeded : exn :=
  HTTPException 400 "Batch limit exceeded (max 100 files)".

Inductive event :=
| Run (i : nat)                 (* the loop runs a task that is ready *)
| Resume (i : nat) (r : reply). (* the call awaited by task [i] completes *)

Section Orchestrator.

(** [RecursiveCharacterTextSplitter(...).split_documents], a library
    function. *)
Variable split_documents : list Document -> list Document.

(** The body of [async with semaphore], up to its first await. *)
Definition enter_body (i : nat) (f : UploadFile) (s : system) : system :=
  let state := initial_state (temp_path f) in
  emit [AAcquire i; AInvoke i (ingest_pdf_load state)]
       (put_task i (mkTask f AwaitLoad (Some state)) s).

(** What the [finally] clause removes. *)
Definition removal (i : nat) (f : UploadFile) (s : system) : list action :=
  match fs s !! temp_path f with
  | Some _ => [ARemove i (temp_path f)]
  | None => []
  end.

(** What the [try] statement turns the result of its body into. *)
Definition outcome_of (f : UploadFile) (r : exn + ResumeData) : outcome :=
  match r with
  | inr d => Returned d
  | inl e => Raised (processing_error f e)
  end.

(** Leaving the [try] statement with result [r]: the [async with] exit
    releases the gate, the [except] clause turns an exception into an
    HTTP 500, the [finally] clause removes the temporary file if it is
    there. *)
Definition leave (i : nat) (f : UploadFile) (st : option (gmap string value))
    (r : exn + ResumeData) (s : system) : system :=
  let s1 := emit [ARelease i] (release s) in
  let o := outcome_of f r in
  let s2 := match fs s1 !! temp_path f with
            | Some _ => emit [ARemove i (temp_path f)]
                             (put_fs (delete (temp_path f) (fs s1)) s1)
            | None => s1
            end in
  emit [AOutcome i o] (put_task i (mkTask f (Done o) st) s2).

(** [process_single_resume] from its first line to its first suspension. *)
Definition start (i : nat) (f : UploadFile) (s : system) : system :=
  if negb (endswith (filename f) ".pdf") then
    let o := Raised (not_a_pdf f) in
    emit [AOutcome i o] (put_task i (mkTask f (Done o) None) s)
  else
    let s1 := emit [ACreate i (temp_path f); ARequest i]
                   (put_fs (<[temp_path f := file f]> (fs s)) s) in
    if locked (semaphore s1) then
      put_sem (mkSemaphore (sem_value (semaphore s1)) (sem_waiters (semaphore s1) ++ [i]))
              (put_task i (mkTask f WaitSlot None) s1)
    else
      enter_body i f
        (put_sem (mkSemaphore (sem_value (semaphore s1) - 1) (sem_waiters (semaphore s1))) s1).

(** A task resumed with the reply of the call it awaits. *)
Definition resume (i : nat) (f : UploadFile) (p : pc) (state : gmap string value)
    (r : reply) (s : system) : option system :=
  match p, r with
  | AwaitLoad, LoadReturn pages =>
      let splits := split_documents pages in
      Some (emit [AInvoke i (CallIndex splits)]
                 (put_task i (mkTask f (AwaitIndex splits) (Some state)) s))
  | AwaitIndex splits, IndexAck =>
      let ingest_result := ingest_pdf_result splits in
      let state' := dict_update state ingest_result in
      match parse_resume_call state' with
      | inr c => Some (emit [AInvoke i c]
                            (put_task i (mkTask f AwaitExtract (Some state')) s))
      | inl e => Some (leave i f (Some state') (inl e) s)
      end
  | AwaitExtract, ExtractReturn result =>
      let parse_result := parse_resume_result result in
      Some (leave i f (Some state) (parsed_data_of parse_result) s)
  | AwaitLoad, Fault msg
  | AwaitIndex _, Fault msg
  | AwaitExtract, Fault msg => Some (leave i f (Some state) (inl (Exception msg)) s)
  | _, _ => None
  end.


(** One step of the event loop; [None] when the event is not enabled. *)
Definition step (e : event) (s : system) : option system :=
  match e with
  | Run i =>
      match tasks s !! i with
      | Some t =>
          match t_pc t with
          | Created => Some (start i (t_file t) s)
          | Woken => Some (enter_body i (t_file t) s)
          | _ => None
          end
      | None => None
      end
  | Resume i r =>
      match tasks s !! i with
      | Some (mkTask f p (Some state)) => resume i f p state r (emit [AResume i r] s)
      | _ => None
      end
  end.

Fixpoint exec (tr : list event) (s : system) : option system :=
  match tr with
  | [] => Some s
  | e :: tr' =>
      match step e s with
      | Some s' => exec tr' s'
      | None => None
      end
  end.

(** The tasks built by [[process_single_resume(file) for file in files]],
    with a gate of capacity [c] and a file system [fs0]. *)
Definition init (c : Z) (fs0 : gmap string (list Byte.byte)) (files : list UploadFile) : system :=
  mkSystem (map (fun f => mkTask f Created None) files) (mkSemaphore c []) fs0 [].

Inductive reachable (c : Z) (fs0 : gmap string (list Byte.byte)) (files : list UploadFile)
  : system -> Prop :=
| reach_init : reachable c fs0 files (init c fs0 files)
| reach_step s e s' :
    reachable c fs0 files s -> step e s = Some s' -> reachable c fs0 files s'.

(** ** [batch_upload_resumes] *)

(** The size check at the head of the endpoint. *)
Definition batch_start (fs0 : gmap string (list Byte.byte)) (files : list UploadFile)
  : exn + system :=
  if (100 <? length files)%nat then inl batch_limit_exceeded
  else inr (init CONCURRENCY_LIMIT fs0 files).

(** [asyncio.gather] of the tasks with [return_exceptions=True]: available once
    every task is done; exceptions are results like the others. *)
Definition gather (s : system) : option (list outcome) :=
  mapM (fun t => match t_pc t with Done o => Some o | _ => None end) (tasks s).

(** The loop over [results]. *)
Fixpoint collect (results : list outcome) (final_results : list ResumeData)
  : list ResumeData :=
  match results with
  | [] => final_results
  | Raised _ :: rest => collect rest final_results
  | Returned res :: rest => collect rest (final_results ++ [res])
  end.

(** What the endpoint returns once the batch is over. *)
Definition batch_finish (s : system) : option (list ResumeData) :=
  (fun results => collect results []) <$> gather s.

(** The endpoint, its tasks run by the event loop in the order [tr]:
    the exception it raises or the list it returns; [None] when [tr] is
    not a run of the batch or stops before the batch is over. *)
Definition batch_upload_resumes (fs0 : gmap string (list Byte.byte))
    (files : list UploadFile) (tr : list event) : option (exn + list ResumeData) :=
  match batch_start fs0 files with
  | inl e => Some (inl e)
  | inr s0 =>
      match exec tr s0 with
      | Some s => inr <$> batch_finish s
      | None => None
      end
  end.

End Orchestrator.

(** ** Observations on a run *)

(** The actions of job [i], in order. *)
Definition proj (i : nat) (l : list action) : list action :=
  filter (fun a => owner a = i) l.

Definition is_acquire (a : action) : bool := match a with AAcquire _ => true | _ => false end.
Definition is_release (a : action) : bool := match a with ARelease _ => true | _ => false end.

(** How many actions of [l] satisfy [p]. *)
Fixpoint count (p : action -> bool) (l : list action) : nat :=
  match l with
  | [] => O
  | a :: l' => ((if p a then 1 else 0) + count p l')%nat
  end.







(** The job an event resumes. *)
Definition target (e : event) : nat :=
  match e with
  | Run i | Resume i _ => i
  end.

(** A task that sits between the creation of its file and its cleanup. *)
Definition in_flight (p : pc) : bool :=
  match p with
  | WaitSlot | Woken | AwaitLoad | AwaitIndex _ | AwaitExtract => true
  | Created | Done _ => false
  end.

(** A task that was handed a slot of the gate and has not released it. *)
Definition occupies (p : pc) : bool :=
  match p with
  | Woken | AwaitLoad | AwaitIndex _ | AwaitExtract => true
  | Created | WaitSlot | Done _ => false
  end.

(** A task for which [semaphore.acquire()] returned and that has not
    released the gate. *)
Definition admitted (p : pc) : bool :=
  match p with
  | AwaitLoad | AwaitIndex _ | AwaitExtract => true
  | Created | WaitSlot | Woken | Done _ => false
  end.

Definition is_done (p : pc) : bool :=
  match p with Done _ => true | _ => false end.

Definition b2n (b : bool) : nat := if b then 1%nat else 0%nat.

Fixpoint count_pc (p : pc -> bool) (l : list task) : nat :=
  match l with
  | [] => O
  | t :: l' => ((if p (t_pc t) then 1 else 0) + count_pc p l')%nat
  end.

(** A task the event loop can move on its own: it is neither queued at
    the gate nor done. *)
Definition runnable (p : pc) : bool :=
  match p with
  | Created | Woken | AwaitLoad | AwaitIndex _ | AwaitExtract => true
  | WaitSlot | Done _ => false
  end.

(** How many suspension points a task may still go through. *)
Definition weight (p : pc) : nat :=
  match p with
  | Created => 6
  | WaitSlot => 5
  | Woken => 4
  | AwaitLoad => 3
  | AwaitIndex _ => 2
  | AwaitExtract => 1
  | Done _ => 0
  end.

Fixpoint remaining (l : list task) : nat :=
  match l with
  | [] => O
  | t :: l' => (weight (t_pc t) + remaining l')%nat
  end.

(** No other file of the batch has the name of file [i]. *)
Definition alone (files : list UploadFile) (i : nat) : Prop :=
  forall j fi fj, files !! i = Some fi -> files !! j = Some fj -> j <> i ->
    filename fj <> filename fi.

(** The successful results among the outcomes, in order. *)
Definition successes (results : list outcome) : list ResumeData :=
  omap (fun o => match o with Returned d => Some d | Raised _ => None end) results.

(** The exceptions among the outcomes, in order. *)
Definition failures (results : list outcome) : list exn :=
  omap (fun o => match o with Returned _ => None | Raised e => Some e end) results.

(** ** The record format of [ResumeData] *)

(** Modelled from the spec: the serialization of the record format is
    done by pydantic, a library that is not under src/.  A record is
    written as the JSON object of the fields declared in [app/models.py]
    and read back by validating such an object against the same
    declarations. *)

(** A JSON document, as the response of the endpoint carries it. *)
#[local] Set Warnings "-register-all".
Inductive json :=
| JNull
| JString (s : string)
| JArray (items : list json)
| JObject (members : list (string * json)).

(** The member named [k] of an object; the last one wins. *)
Definition member (k : string) (members : list (string * json)) : option json :=
  fold_left (fun acc kv => if String.eqb (fst kv) k then Some (snd kv) else acc)
            members None.

Definition dump_str (o : option string) : json :=
  match o with
  | None => JNull
  | Some s => JString s
  end.

Definition dump_Education (e : Education) : json :=
  JObject [("degree", dump_str (degree e));
           ("institution", dump_str (institution e));
           ("year", dump_str (year e))].

Definition dump_Experience (e : Experience) : json :=
  JObject [("role", dump_str (role e));
           ("company", dump_str (company e));
           ("duration", dump_str (duration e));
           ("description", dump_str (description e))].

(** Modelled from the spec: serialization of a structured-extract result
    (pydantic's [model_dump], not under src/). *)
Definition dump_ResumeData (r : ResumeData) : json :=
  JObject [("full_name", dump_str (full_name r));
           ("email", dump_str (email r));
           ("phone", dump_str (phone r));
           ("skills", JArray (map JString (skills r)));
           ("experience", JArray (map dump_Experience (experience r)));
           ("education", JArray (map dump_Education (education r)));
           ("summary", dump_str (summary r))].

(** [Optional[str] = Field(None)]: absent or null is [None]. *)
Definition load_str (j : option json) : option (option string) :=
  match j with
  | None | Some JNull => Some None
  | Some (JString s) => Some (Some s)
  | Some _ => None
  end.

Definition load_item_str (j : json) : option string :=
  match j with
  | JString s => Some s
  | _ => None
  end.

(** [List[...] = Field(default_factory=list)]: absent is the empty list. *)
Definition load_list {A : Type} (item : json -> option A) (j : option json)
  : option (list A) :=
  match j with
  | None => Some []
  | Some (JArray items) => mapM item items
  | Some _ => None
  end.

Definition load_Education (j : json) : option Education :=
  match j with
  | JObject ms =>
      d ← load_str (member "degree" ms);
      i ← load_str (member "institution" ms);
      y ← load_str (member "year" ms);
      Some (mkEducation d i y)
  | _ => None
  end.

Definition load_Experience (j : json) : option Experience :=
  match j with
  | JObject ms =>
      r ← load_str (member "role" ms);
      c ← load_str (member "company" ms);
      d ← load_str (member "duration" ms);
      s ← load_str (member "description" ms);
      Some (mkExperience r c d s)
  | _ => None
  end.

(** Modelled from the spec: deserialization of the record format
    (pydantic's [model_validate], not under src/); [None] is a validation
    error. *)
Definition load_ResumeData (j : json) : option ResumeData :=
  match j with
  | JObject ms =>
      n ← load_str (member "full_name" ms);
      e ← load_str (member "email" ms);
      p ← load_str (member "phone" ms);
      sk ← load_list load_item_str (member "skills" ms);
      ex ← load_list load_Experience (member "experience" ms);
      ed ← load_list load_Education (member "education" ms);
      su ← load_str (member "summary" ms);
      Some (mkResumeData n e p sk ex ed su)
  | _ => None
  end.

(** ** The other endpoints ([app/main.py]) and [ask_question] *)

(** Calls to, and replies of, the collaborators of the query path. *)
Inductive qcall :=
| CallRetrieve (question : value)
| CallAnswer (context : string) (question : value).

Inductive qreply :=
| Retrieved (relevant_docs : list Document)
| Answered (content : string)
| QFault (msg : string).

(** [ask_question], the replies of the retriever and of the model given
    in the order they are awaited: the calls made, and the update
    returned or the exception raised ([None] when the replies stop before
    the function ends).  A missing key raises [KeyError] before anything
    is called. *)
Definition ask_question (state : gmap string value) (replies : list qreply)
  : list qcall * option (exn + gmap string value) :=
  match state !! "question" with
  | None => ([], Some (inl (Exception "'question'")))
  | Some question =>
      match replies with
      | Retrieved relevant_docs :: replies1 =>
          let context := join newline (map page_content relevant_docs) in
          let calls := [CallRetrieve question; CallAnswer context question] in
          match replies1 with
          | Answered content :: _ => (calls, Some (inr {[ "answer" := VStr content ]}))
          | QFault msg :: _ => (calls, Some (inl (Exception msg)))
          | _ => (calls, None)
          end
      | QFault msg :: _ => ([CallRetrieve question], Some (inl (Exception msg)))
      | _ => ([CallRetrieve question], None)
      end
  end.

(** The dictionary [query_resume] builds for a question. *)
Definition query_state (question : string) : gmap string value :=
  <["pdf_path" := VStr ""]>
  (<["text_chunks" := VChunks []]>
  (<["parsed_data" := VNone]>
  (<["question" := VStr question]>
  (<["answer" := VStr ""]> ∅)))).

(** [query_resume]: the calls made, and the answer returned or the
    exception raised; every exception is turned into an HTTP 500 whose
    detail is its [str]. *)
Definition query_resume (question : string) (replies : list qreply)
  : list qcall * option (exn + value) :=
  let state := query_state question in
  match ask_question state replies with
  | (calls, Some (inr result)) =>
      match result !! "answer" with
      | Some answer => (calls, Some (inr answer))
      | None => (calls, Some (inl (HTTPException 500 (str (Exception "'answer'")))))
      end
  | (calls, Some (inl e)) => (calls, Some (inl (HTTPException 500 (str e))))
  | (calls, None) => (calls, None)
  end.








Section Endpoints.

Variable split_documents : list Document -> list Document.


End Endpoints.

(** ** Sample batches *)

(** [MOCK_RESUME] of [tests/test_benchmark.py]. *)
Definition MOCK_RESUME : ResumeData :=
  mkResumeData (Some "Mock Candidate") (Some "mock@example.com") None
    ["Python"; "Mocking"; "AsyncIO"]
    [mkExperience (Some "Senior Dev") (Some "Mock Corp") (Some "2020-Present")
                  (Some "Led mock teams.")]
    [mkEducation (Some "BS CS") (Some "Mock University") (Some "2020")]
    (Some "Experienced mock developer.").

(** A splitter that keeps every page whole. *)
Definition no_split (pages : list Document) : list Document := pages.

Definition sample_pages : list Document :=
  [mkDocument "This is chunk 1" "page 0"; mkDocument "This is chunk 2" "page 1"].

(** Two resumes around a text file. *)
Definition mixed_files : list UploadFile :=
  [mkUploadFile "a.pdf" [Byte.x25; Byte.x50];
   mkUploadFile "notes.txt" [Byte.x68; Byte.x69];
   mkUploadFile "b.pdf" [Byte.x25; Byte.x44]].

(** Two uploads under one name, as the benchmark submits them. *)
Definition same_name_files : list UploadFile :=
  [mkUploadFile "test.pdf" [Byte.x01];
   mkUploadFile "test.pdf" [Byte.x02]].

(** With one slot: job 0 reaches the model, job 1 is refused, job 2 is
    queued at the gate. *)
Definition mixed_midway : list event :=
  [Run 0; Run 1; Run 2; Resume 0 (LoadReturn sample_pages); Resume 0 IndexAck].

(** Then the model fails job 0, and job 2 goes through. *)
Definition mixed_rest : list event :=
  [Resume 0 (Fault "quota exceeded"); Run 2; Resume 2 (LoadReturn sample_pages);
   Resume 2 IndexAck; Resume 2 (ExtractReturn MOCK_RESUME)].

Definition run_from (c : Z) (files : list UploadFile) (tr : list event) : system :=
  default (init c ∅ files) (exec no_split tr (init c ∅ files)).

Definition mixed_mid_state : system := run_from 1 mixed_files mixed_midway.
Definition mixed_fail_state : system :=
  run_from 1 mixed_files (mixed_midway ++ [Resume 0 (Fault "quota exceeded")]).
Definition mixed_end_state : system := run_from 1 mixed_files (mixed_midway ++ mixed_rest).

(** With the five slots of the source nobody queues. *)
Definition mixed_trace : list event :=
  [Run 0; Run 1; Run 2; Resume 0 (LoadReturn sample_pages); Resume 0 IndexAck;
   Resume 0 (Fault "quota exceeded"); Resume 2 (LoadReturn sample_pages);
   Resume 2 IndexAck; Resume 2 (ExtractReturn MOCK_RESUME)].

(** Both jobs of the same name are started, then the loader fails the
    first and then the second. *)
Definition same_name_started : list event := [Run 0; Run 1].

(** ** What holds in every reachable state *)

Section Invariant.

Variable split_documents : list Document -> list Document.

(** How far the stages of a job went: which call it awaits. *)
Inductive history :=
| HLoad
| HIndex (pages : list Document)
| HExtract (pages : list Document).

Definition history_pc (h : history) : pc :=
  match h with
  | HLoad => AwaitLoad
  | HIndex pages => AwaitIndex (split_documents pages)
  | HExtract _ => AwaitExtract
  end.

Definition history_state (f : UploadFile) (h : history) : gmap string value :=
  match h with
  | HLoad | HIndex _ => initial_state (temp_path f)
  | HExtract pages =>
      dict_update (initial_state (temp_path f))
                  (ingest_pdf_result (split_documents pages))
  end.

Definition waiting_log (i : nat) (f : UploadFile) : list action :=
  [ACreate i (temp_path f); ARequest i].

Definition load_log (i : nat) (f : UploadFile) : list action :=
  waiting_log i f ++
  [AAcquire i; AInvoke i (CallLoad (Some (VStr (temp_path f))))].

Definition index_log (i : nat) (f : UploadFile) (pages : list Document) : list action :=
  load_log i f ++
  [AResume i (LoadReturn pages); AInvoke i (CallIndex (split_documents pages))].

Definition extract_log (i : nat) (f : UploadFile) (pages : list Document) : list action :=
  index_log i f pages ++
  [AResume i IndexAck;
   AInvoke i (CallExtract (join newline (map page_content (split_documents pages))))].

Definition history_log (i : nat) (f : UploadFile) (h : history) : list action :=
  match h with
  | HLoad => load_log i f
  | HIndex pages => index_log i f pages
  | HExtract pages => extract_log i f pages
  end.

(** The last reply a job received and the outcome it leads to. *)
Inductive final (f : UploadFile) : history -> reply -> outcome -> Prop :=
| final_fault h msg :
    final f h (Fault msg) (Raised (processing_error f (Exception msg)))
| final_result pages result :
    final f (HExtract pages) (ExtractReturn result) (Returned result).

(** The removals a job performs in its [finally] clause: at most one,
    and exactly one when no other job has its file name. *)
Definition cleanup (i : nat) (f : UploadFile) (unshared : Prop) (rm : list action) : Prop :=
  (rm = [] \/ rm = [ARemove i (temp_path f)]) /\
  (unshared -> rm = [ARemove i (temp_path f)]).

(** Where job [i] stands, the dictionary it holds and the actions it
    performed so far. *)
Inductive job_at (i : nat) (f : UploadFile) (unshared : Prop)
  : pc -> option (gmap string value) -> list action -> Prop :=
| at_created :
    job_at i f unshared Created None []
| at_rejected :
    endswith (filename f) ".pdf" = false ->
    job_at i f unshared (Done (Raised (not_a_pdf f))) None
           [AOutcome i (Raised (not_a_pdf f))]
| at_wait :
    endswith (filename f) ".pdf" = true ->
    job_at i f unshared WaitSlot None (waiting_log i f)
| at_woken :
    endswith (filename f) ".pdf" = true ->
    job_at i f unshared Woken None (waiting_log i f)
| at_stage h :
    endswith (filename f) ".pdf" = true ->
    job_at i f unshared (history_pc h) (Some (history_state f h)) (history_log i f h)
| at_done h r o rm :
    endswith (filename f) ".pdf" = true ->
    final f h r o ->
    cleanup i f unshared rm ->
    job_at i f unshared (Done o) (Some (history_state f h))
           (history_log i f h ++ AResume i r :: ARelease i :: rm ++ [AOutcome i o]).

(** The invariant of the system started with a gate of capacity [c] on
    the batch [files]. *)
Definition fs_ok (fsys : gmap string (list Byte.byte)) (t : task) : Prop :=
  (in_flight (t_pc t) = true ->
     fsys !! temp_path (t_file t) = Some (file (t_file t))) /\
  (is_done (t_pc t) = true -> endswith (filename (t_file t)) ".pdf" = true ->
     fsys !! temp_path (t_file t) = None).

Record Inv (c : Z) (files : list UploadFile) (s : system) : Prop := mkInv {
  inv_files : map t_file (tasks s) = files;
  inv_value : 0 <= sem_value (semaphore s);
  inv_slots : sem_value (semaphore s) + Z.of_nat (count_pc occupies (tasks s)) = c;
  inv_nodup : NoDup (sem_waiters (semaphore s));
  inv_waiters : forall i,
    i ∈ sem_waiters (semaphore s) <->
    exists t, tasks s !! i = Some t /\ t_pc t = WaitSlot;
  inv_jobs : forall i t, tasks s !! i = Some t ->
    job_at i (t_file t) (alone files i) (t_pc t) (t_state t) (proj i (log s));
  inv_fs : forall i t, tasks s !! i = Some t -> alone files i -> fs_ok (fs s) t;
  inv_peak :
    count is_acquire (log s)
    = (count is_release (log s) + count_pc admitted (tasks s))%nat
}.

(** When jobs are queued at the gate, no slot is available. *)
Definition queue_ok (s : system) : Prop :=
  sem_waiters (semaphore s) <> [] -> sem_value (semaphore s) = 0.

End Invariant.

(** * Properties *)

(** ** The record format *)

Lemma mapM_map_Some {A B : Type} (f : A -> B) (g : B -> option A) (l : list A) :
  (forall x, g (f x) = Some x) -> mapM g (map f l) = Some l.
Proof.
  intros Hgf. induction l as [|x l IH]; [reflexivity|].
  cbn. rewrite Hgf. cbn. rewrite IH. reflexivity.
Qed.

Lemma load_dump_str (o : option string) (k : option json) :
  k = Some (dump_str o) -> load_str k = Some o.
Proof. intros ->. destruct o; reflexivity. Qed.

Lemma load_dump_Education (e : Education) : load_Education (dump_Education e) = Some e.
Proof. destruct e as [[d|] [i|] [y|]]; reflexivity. Qed.

Lemma load_dump_Experience (e : Experience) : load_Experience (dump_Experience e) = Some e.
Proof. destruct e as [[r|] [c|] [d|] [s|]]; reflexivity. Qed.

(** C9: serialising a [ResumeData] record to its JSON document and
    validating that document back gives the record itself, field for
    field. *)
Theorem ResumeData_roundtrip (r : ResumeData) :
  load_ResumeData (dump_ResumeData r) = Some r.
Proof.
  destruct r as [n e p sk ex ed su].
  unfold load_ResumeData, dump_ResumeData; cbn [member fold_left fst snd].
  cbn -[load_list load_str dump_str].
  rewrite !(load_dump_str _ _ eq_refl). cbn -[load_list].
  unfold load_list.
  rewrite (mapM_map_Some JString load_item_str sk) by reflexivity.
  rewrite (mapM_map_Some dump_Experience load_Experience ex load_dump_Experience).
  rewrite (mapM_map_Some dump_Education load_Education ed load_dump_Education).
  reflexivity.
Qed.

(** ** Lists of actions and of tasks *)

Lemma proj_app (i : nat) (l l' : list action) :
  proj i (l ++ l') = proj i l ++ proj i l'.
Proof. unfold proj. apply filter_app. Qed.

Lemma proj_all_own (i : nat) (acts : list action) :
  Forall (fun a => owner a = i) acts -> proj i acts = acts.
Proof.
  induction 1 as [|a acts Ha _ IH]; [reflexivity|].
  unfold proj in *. rewrite filter_cons_True by exact Ha. by rewrite IH.
Qed.

Lemma proj_none_own (i j : nat) (acts : list action) :
  Forall (fun a => owner a = i) acts -> j <> i -> proj j acts = [].
Proof.
  intros Hall Hne. induction Hall as [|a acts Ha _ IH]; [reflexivity|].
  unfold proj in *. rewrite filter_cons_False by congruence. exact IH.
Qed.

Lemma proj_emit_own (i : nat) (l acts : list action) :
  Forall (fun a => owner a = i) acts -> proj i (l ++ acts) = proj i l ++ acts.
Proof. intros H. by rewrite proj_app, (proj_all_own i acts H). Qed.

Lemma proj_emit_other (i j : nat) (l acts : list action) :
  Forall (fun a => owner a = i) acts -> j <> i -> proj j (l ++ acts) = proj j l.
Proof.
  intros H Hne. rewrite proj_app, (proj_none_own i j acts H Hne). apply app_nil_r.
Qed.

Lemma count_app (p : action -> bool) (l l' : list action) :
  count p (l ++ l') = (count p l + count p l')%nat.
Proof. induction l as [|a l IH]; cbn; [reflexivity|]. rewrite IH. lia. Qed.

Lemma count_proj_le (p : action -> bool) (i : nat) (l : list action) :
  (count p (proj i l) <= count p l)%nat.
Proof.
  induction l as [|a l IH]; [reflexivity|].
  unfold proj in *. destruct (decide (owner a = i)) as [Ho|Ho].
  - rewrite filter_cons_True by exact Ho. cbn. lia.
  - rewrite filter_cons_False by exact Ho. cbn. lia.
Qed.

Lemma count_pc_insert (p : pc -> bool) (l : list task) (i : nat) (t t' : task) :
  l !! i = Some t ->
  (count_pc p (<[i := t']> l) + b2n (p (t_pc t)) = count_pc p l + b2n (p (t_pc t')))%nat.
Proof.
  revert i. induction l as [|x l IH]; intros [|i] H; try discriminate.
  - injection H as ->. cbn. unfold b2n.
    destruct (p (t_pc t)), (p (t_pc t')); lia.
  - specialize (IH i H).
    change (<[S i := t']> (x :: l)) with (x :: <[i := t']> l).
    cbn [count_pc]. unfold b2n in *. revert IH.
    destruct (p (t_pc x)), (p (t_pc t)), (p (t_pc t')); lia.
Qed.


Lemma count_pc_mono (p q : pc -> bool) (l : list task) :
  (forall x, p x = true -> q x = true) -> (count_pc p l <= count_pc q l)%nat.
Proof.
  intros Hpq. induction l as [|x l IH]; cbn; [lia|].
  specialize (Hpq (t_pc x)).
  destruct (p (t_pc x)); [rewrite (Hpq eq_refl)|destruct (q (t_pc x))]; lia.
Qed.

Lemma alter_as_insert (g : task -> task) (l : list task) (i : nat) (t : task) :
  l !! i = Some t -> alter g i l = <[i := g t]> l.
Proof.
  revert i. induction l as [|x l IH]; intros [|i] H; try discriminate.
  - injection H as ->. reflexivity.
  - cbn in *. f_equal. by apply IH.
Qed.

Lemma files_insert (l : list task) (i : nat) (t t' : task) :
  l !! i = Some t -> t_file t' = t_file t ->
  map t_file (<[i := t']> l) = map t_file l.
Proof.
  revert i. induction l as [|x l IH]; intros [|i] H Hf; try discriminate.
  - injection H as ->. cbn. by rewrite Hf.
  - cbn in *. f_equal. by apply IH.
Qed.

Lemma lookup_insert_task (l : list task) (i j : nat) (t t' : task) :
  l !! i = Some t ->
  <[i := t']> l !! j = if decide (j = i) then Some t' else l !! j.
Proof.
  intros H. destruct (decide (j = i)) as [->|Hne].
  - apply list_lookup_insert_eq. by eapply lookup_lt_Some.
  - by apply list_lookup_insert_ne.
Qed.

(** ** Preservation of the invariant *)

Lemma temp_path_inj (f g : UploadFile) :
  temp_path f = temp_path g -> filename f = filename g.
Proof. unfold temp_path. cbn. intros H. by repeat injection H as H. Qed.

Lemma lookup_map_file (l : list task) (j : nat) (u : task) :
  l !! j = Some u -> map t_file l !! j = Some (t_file u).
Proof.
  revert j. induction l as [|x l IH]; intros [|j] H; try discriminate.
  - by injection H as ->.
  - cbn in *. by apply IH.
Qed.

Lemma alone_paths (files : list UploadFile) (l : list task) (i j : nat) (t u : task) :
  map t_file l = files -> l !! i = Some t -> l !! j = Some u -> j <> i ->
  alone files j -> temp_path (t_file u) <> temp_path (t_file t).
Proof.
  intros <- Hi Hj Hne Hal Heq. apply temp_path_inj in Heq.
  apply (Hal i (t_file u) (t_file t)); [| |congruence|congruence].
  - by apply lookup_map_file.
  - by apply lookup_map_file.
Qed.

Section Preservation.

Variable split_documents : list Document -> list Document.
Variable c : Z.
Variable files : list UploadFile.

Abbreviation Inv := (Inv split_documents c files).
Abbreviation job_at := (job_at split_documents).

(** A step that only concerns task [i]: its own record, the counter of
    the gate, possibly the end of the queue, and its own temporary
    file. *)
Lemma inv_local (s : system) (i : nat) (t t' : task) (sem' : Semaphore)
    (fs' : gmap string (list Byte.byte)) (acts : list action) :
  Inv s ->
  tasks s !! i = Some t ->
  t_file t' = t_file t ->
  Forall (fun a => owner a = i) acts ->
  (forall q, q <> temp_path (t_file t) -> fs' !! q = fs s !! q) ->
  job_at i (t_file t) (alone files i) (t_pc t') (t_state t') (proj i (log s) ++ acts) ->
  (alone files i -> fs_ok fs' t') ->
  0 <= sem_value sem' ->
  sem_value sem' + Z.of_nat (b2n (occupies (t_pc t')))
    = sem_value (semaphore s) + Z.of_nat (b2n (occupies (t_pc t))) ->
  t_pc t <> WaitSlot ->
  (sem_waiters sem' = sem_waiters (semaphore s) /\ t_pc t' <> WaitSlot) \/
  (sem_waiters sem' = sem_waiters (semaphore s) ++ [i] /\ t_pc t' = WaitSlot) ->
  (count is_acquire acts + b2n (admitted (t_pc t))
   = count is_release acts + b2n (admitted (t_pc t')))%nat ->
  Inv (mkSystem (<[i := t']> (tasks s)) sem' fs' (log s ++ acts)).
Proof.
  intros [Hfiles Hval Hslots Hnd Hw Hjobs Hfs Hpeak] Hi Hfile Hown Hframe Hjob Hfsi
         Hval' Hslots' Hnw Hq Hpeak'.
  assert (Hlk : forall j, <[i := t']> (tasks s) !! j
                = if decide (j = i) then Some t' else tasks s !! j).
  { intros j. by eapply lookup_insert_task. }
  assert (Hnotin : i ∉ sem_waiters (semaphore s)).
  { intros Hin. apply Hw in Hin as (u & Hu & Hpc). congruence. }
  split; cbn [tasks semaphore fs log].
  - rewrite <- Hfiles. by eapply files_insert.
  - exact Hval'.
  - pose proof (count_pc_insert occupies _ _ _ t' Hi). lia.
  - destruct Hq as [[-> _]|[-> _]]; [exact Hnd|].
    apply NoDup_app. split; [exact Hnd|]. split.
    + intros x Hx Hx'. apply list_elem_of_singleton in Hx' as ->. by apply Hnotin.
    + apply NoDup_singleton.
  - intros j. rewrite Hlk. destruct (decide (j = i)) as [->|Hne].
    + destruct Hq as [[-> Hpc]|[-> Hpc]].
      * split; [intros Hin; by apply Hnotin in Hin|].
        intros (u & Hu & Hpcu). injection Hu as <-. contradiction.
      * split; [intros _; eauto|]. intros _. apply elem_of_app. right.
        by apply list_elem_of_singleton.
    + destruct Hq as [[-> _]|[-> _]]; [apply Hw|].
      rewrite elem_of_app, list_elem_of_singleton, <- Hw. intuition congruence.
  - intros j u. rewrite Hlk. destruct (decide (j = i)) as [->|Hne].
    + intros Hu. injection Hu as <-. rewrite Hfile.
      by rewrite (proj_emit_own i _ _ Hown).
    + intros Hu. rewrite (proj_emit_other i j _ _ Hown Hne). by apply Hjobs.
  - intros j u. rewrite Hlk. destruct (decide (j = i)) as [->|Hne].
    + intros Hu. injection Hu as <-. exact Hfsi.
    + intros Hu Hal. destruct (Hfs j u Hu Hal) as [H1 H2].
      assert (Hp : temp_path (t_file u) <> temp_path (t_file t)).
      { by eapply alone_paths. }
      split; intros; rewrite (Hframe _ Hp); auto.
  - rewrite !count_app.
    pose proof (count_pc_insert admitted _ _ _ t' Hi). lia.
Qed.

Lemma job_at_wait_inv (i : nat) (f : UploadFile) (U : Prop)
    (st : option (gmap string value)) (l : list action) :
  job_at i f U WaitSlot st l ->
  endswith (filename f) ".pdf" = true /\ st = None /\ l = waiting_log i f.
Proof.
  inversion 1 as [| | | |h Hpdf Hpc|]; subst; auto.
  destruct h; discriminate.
Qed.

(** Handing the slot that was just returned to the first waiter. *)
Lemma inv_wake (s : system) :
  Inv s -> 0 < sem_value (semaphore s) -> Inv (wake_up_next s).
Proof.
  intros HI Hpos. unfold wake_up_next.
  destruct (sem_waiters (semaphore s)) as [|w ws] eqn:Hws; [exact HI|].
  destruct HI as [Hfiles Hval Hslots Hnd Hw Hjobs Hfs Hpeak].
  rewrite Hws in Hnd, Hw.
  destruct (proj1 (Hw w)) as (tw & Htw & Hpcw); [left|].
  rewrite (alter_as_insert _ _ _ _ Htw).
  assert (Hlk : forall j, <[w := with_pc Woken tw]> (tasks s) !! j
                = if decide (j = w) then Some (with_pc Woken tw) else tasks s !! j).
  { intros j. by eapply lookup_insert_task. }
  apply NoDup_cons in Hnd as [Hwws Hnd].
  split; cbn [tasks semaphore fs log sem_value sem_waiters].
  - rewrite <- Hfiles. by eapply files_insert.
  - lia.
  - pose proof (count_pc_insert occupies _ _ _ (with_pc Woken tw) Htw) as Hc.
    rewrite Hpcw in Hc. cbn in Hc. lia.
  - exact Hnd.
  - intros j. rewrite Hlk. destruct (decide (j = w)) as [->|Hne].
    + split; [intros Hin; contradiction|].
      intros (u & Hu & Hpcu). injection Hu as <-. discriminate.
    + rewrite <- Hw. rewrite elem_of_cons. intuition congruence.
  - intros j u. rewrite Hlk. destruct (decide (j = w)) as [->|Hne].
    + intros Hu. injection Hu as <-. specialize (Hjobs w tw Htw).
      rewrite Hpcw in Hjobs. apply job_at_wait_inv in Hjobs as (Hpdf & Hst & Hlog).
      unfold with_pc. cbn [t_file t_pc t_state]. rewrite Hst, Hlog.
      by apply at_woken.
    + intros Hu. by apply Hjobs.
  - intros j u. rewrite Hlk. destruct (decide (j = w)) as [->|Hne].
    + intros Hu Hal. injection Hu as <-. destruct (Hfs w tw Htw Hal) as [H1 H2].
      rewrite Hpcw in H1. split; cbn; [auto|discriminate].
    + intros Hu. by apply Hfs.
  - pose proof (count_pc_insert admitted _ _ _ (with_pc Woken tw) Htw) as Hc.
    rewrite Hpcw in Hc. cbn in Hc. lia.
Qed.

(** Leaving is a step of the task itself followed by the wake-up of the
    first waiter. *)
Lemma leave_eq (s : system) (i : nat) (f : UploadFile)
    (st : option (gmap string value)) (r : exn + ResumeData) :
  i ∉ sem_waiters (semaphore s) ->
  leave i f st r s =
  wake_up_next
    (mkSystem (<[i := mkTask f (Done (outcome_of f r)) st]> (tasks s))
              (mkSemaphore (sem_value (semaphore s) + 1) (sem_waiters (semaphore s)))
              (delete (temp_path f) (fs s))
              (log s ++ ARelease i :: removal i f s ++ [AOutcome i (outcome_of f r)])).
Proof.
  intros Hi.
  unfold leave, release, wake_up_next, removal, outcome_of, emit, put_sem, put_task, put_fs.
  cbn [semaphore sem_waiters sem_value tasks fs log].
  destruct (sem_waiters (semaphore s)) as [|w ws] eqn:Hws;
    cbn [semaphore sem_waiters sem_value tasks fs log].
  - destruct (fs s !! temp_path f) eqn:Hp;
      cbn [semaphore sem_waiters sem_value tasks fs log];
      rewrite <- ?app_assoc; [reflexivity|].
    by rewrite (delete_id _ _ Hp).
  - assert (Hne : i <> w) by (intros ->; apply Hi; left).
    destruct (fs s !! temp_path f) eqn:Hp;
      cbn [semaphore sem_waiters sem_value tasks fs log];
      rewrite <- ?app_assoc, !list_insert_alter,
        (list_alter_alter_ne _ _ _ i w) by exact Hne; [reflexivity|].
    by rewrite (delete_id _ _ Hp).
Qed.

Lemma job_at_stage_inv (i : nat) (f : UploadFile) (U : Prop) (p : pc)
    (st : option (gmap string value)) (l : list action) :
  admitted p = true -> job_at i f U p st l ->
  endswith (filename f) ".pdf" = true /\
  exists h, p = history_pc split_documents h /\
            st = Some (history_state split_documents f h) /\
            l = history_log split_documents i f h.
Proof.
  intros Hp. inversion 1; subst; try discriminate. eauto.
Qed.

Lemma history_pc_admitted (h : history) :
  admitted (history_pc split_documents h) = true.
Proof. by destruct h. Qed.

Lemma leave_inv (s : system) (i : nat) (f : UploadFile) (h : history) (r : reply)
    (res : exn + ResumeData) :
  Inv s ->
  tasks s !! i = Some (mkTask f (history_pc split_documents h)
                              (Some (history_state split_documents f h))) ->
  proj i (log s) = history_log split_documents i f h ->
  endswith (filename f) ".pdf" = true ->
  final f h r (outcome_of f res) ->
  Inv (leave i f (Some (history_state split_documents f h)) res (emit [AResume i r] s)).
Proof.
  intros HI Hi Hlog Hpdf Hfin.
  assert (Hpc := history_pc_admitted h).
  assert (Hnotin : i ∉ sem_waiters (semaphore s)).
  { intros Hin. apply (inv_waiters _ _ _ _ HI) in Hin as (u & Hu & Hw).
    rewrite Hi in Hu. injection Hu as <-. cbn in Hw. rewrite Hw in Hpc. discriminate. }
  rewrite leave_eq by exact Hnotin. unfold removal.
  cbn [emit semaphore sem_waiters sem_value tasks fs log]. rewrite <- app_assoc.
  apply inv_wake; [|cbn; pose proof (inv_value _ _ _ _ HI); lia].
  apply (inv_local s i _ (mkTask f (Done (outcome_of f res))
                            (Some (history_state split_documents f h))) _ _ _ HI Hi).
  - reflexivity.
  - repeat constructor. destruct (fs s !! temp_path f); repeat constructor.
  - intros q Hq. cbn in Hq. by apply lookup_delete_ne.
  - cbn [t_file t_pc t_state]. rewrite Hlog. cbn [app].
    apply at_done; [exact Hpdf|exact Hfin|].
    unfold cleanup. split.
    + destruct (fs s !! temp_path f); auto.
    + intros Hal. destruct (inv_fs _ _ _ _ HI i _ Hi Hal) as [H1 _].
      cbn [t_file t_pc] in H1. rewrite H1; [reflexivity|].
      by destruct h.
  - intros _. split; cbn; [discriminate|]. intros _ _. apply lookup_delete_eq.
  - cbn. pose proof (inv_value _ _ _ _ HI). lia.
  - cbn [t_pc sem_value]. destruct h; cbn; lia.
  - cbn. destruct h; discriminate.
  - left. cbn. split; [reflexivity|discriminate].
  - cbn [t_pc]. rewrite Hpc. destruct (fs s !! temp_path f); reflexivity.
Qed.

Lemma ingest_pdf_load_initial (path : string) :
  ingest_pdf_load (initial_state path) = CallLoad (Some (VStr path)).
Proof. unfold ingest_pdf_load, initial_state. by rewrite lookup_insert_eq. Qed.

Lemma parse_resume_call_merged (path : string) (splits : list Document) :
  parse_resume_call (dict_update (initial_state path) (ingest_pdf_result splits))
  = inr (CallExtract (join newline (map page_content splits))).
Proof.
  unfold parse_resume_call, dict_update, ingest_pdf_result.
  by rewrite (lookup_union_Some_l _ _ _ _ (lookup_singleton_eq _ _)).
Qed.

Lemma parsed_data_of_result (result : ResumeData) :
  parsed_data_of (parse_resume_result result) = inr result.
Proof.
  unfold parsed_data_of, parse_resume_result. by rewrite lookup_singleton_eq.
Qed.

Lemma job_at_created_inv (i : nat) (f : UploadFile) (U : Prop)
    (st : option (gmap string value)) (l : list action) :
  job_at i f U Created st l -> st = None /\ l = [].
Proof.
  inversion 1 as [| | | |h Hpdf Hpc|]; subst; auto. destruct h; discriminate.
Qed.

Lemma job_at_woken_inv (i : nat) (f : UploadFile) (U : Prop)
    (st : option (gmap string value)) (l : list action) :
  job_at i f U Woken st l ->
  endswith (filename f) ".pdf" = true /\ st = None /\ l = waiting_log i f.
Proof.
  inversion 1 as [| | | |h Hpdf Hpc|]; subst; auto. destruct h; discriminate.
Qed.

Lemma start_inv (s : system) (i : nat) (t : task) :
  Inv s -> tasks s !! i = Some t -> t_pc t = Created ->
  Inv (start i (t_file t) s).
Proof.
  intros HI Hi Hpc.
  pose proof (inv_jobs _ _ _ _ HI i t Hi) as Hjob. rewrite Hpc in Hjob.
  apply job_at_created_inv in Hjob as [Hst Hlog].
  pose proof (inv_value _ _ _ _ HI) as Hval.
  unfold start. destruct (endswith (filename (t_file t)) ".pdf") eqn:Hpdf; cbn [negb].
  - destruct (locked _) eqn:Hlocked.
    + unfold emit, put_fs, put_sem, put_task. cbn [tasks semaphore fs log sem_value sem_waiters].
      apply (inv_local s i t (mkTask (t_file t) WaitSlot None) _ _ _ HI Hi).
      * reflexivity.
      * repeat constructor.
      * intros q Hq. by apply lookup_insert_ne.
      * rewrite Hlog. cbn. by apply at_wait.
      * intros _. split; cbn; [intros _; apply lookup_insert_eq|discriminate].
      * exact Hval.
      * rewrite Hpc. cbn. lia.
      * rewrite Hpc. discriminate.
      * right. cbn. split; reflexivity.
      * by rewrite Hpc.
    + unfold enter_body, emit, put_fs, put_sem, put_task.
      cbn [tasks semaphore fs log sem_value sem_waiters]. rewrite <- app_assoc.
      unfold locked in Hlocked. cbn [emit put_fs semaphore] in Hlocked.
      apply orb_false_iff in Hlocked as [Hv Hq]. apply Z.eqb_neq in Hv.
      apply (inv_local s i t (mkTask (t_file t) AwaitLoad
                                (Some (initial_state (temp_path (t_file t))))) _ _ _ HI Hi).
      * reflexivity.
      * repeat constructor.
      * intros q Hq'. by apply lookup_insert_ne.
      * rewrite Hlog, ingest_pdf_load_initial. cbn [app t_pc t_state].
        by apply (at_stage split_documents i (t_file t) _ HLoad).
      * intros _. split; cbn; [intros _; apply lookup_insert_eq|discriminate].
      * cbn. lia.
      * rewrite Hpc. cbn. lia.
      * rewrite Hpc. discriminate.
      * left. cbn. split; [reflexivity|discriminate].
      * by rewrite Hpc.
  - unfold emit, put_task. cbn [tasks semaphore fs log].
    apply (inv_local s i t (mkTask (t_file t) (Done (Raised (not_a_pdf (t_file t)))) None)
             _ _ _ HI Hi).
    + reflexivity.
    + repeat constructor.
    + reflexivity.
    + rewrite Hlog. cbn. by apply at_rejected.
    + intros _. split; cbn; [discriminate|]. intros _ Hpdf'. congruence.
    + exact Hval.
    + rewrite Hpc. cbn. lia.
    + rewrite Hpc. discriminate.
    + left. cbn. split; [reflexivity|discriminate].
    + by rewrite Hpc.
Qed.

Lemma enter_body_inv (s : system) (i : nat) (t : task) :
  Inv s -> tasks s !! i = Some t -> t_pc t = Woken ->
  Inv (enter_body i (t_file t) s).
Proof.
  intros HI Hi Hpc.
  pose proof (inv_jobs _ _ _ _ HI i t Hi) as Hjob. rewrite Hpc in Hjob.
  apply job_at_woken_inv in Hjob as (Hpdf & Hst & Hlog).
  pose proof (inv_value _ _ _ _ HI) as Hval.
  unfold enter_body, emit, put_task. cbn [tasks semaphore fs log].
  apply (inv_local s i t (mkTask (t_file t) AwaitLoad
                            (Some (initial_state (temp_path (t_file t))))) _ _ _ HI Hi).
  - reflexivity.
  - repeat constructor.
  - reflexivity.
  - rewrite Hlog, ingest_pdf_load_initial. cbn [app t_pc t_state].
    by apply (at_stage split_documents i (t_file t) _ HLoad).
  - intros Hal. destruct (inv_fs _ _ _ _ HI i t Hi Hal) as [H1 _].
    rewrite Hpc in H1. split; cbn; [auto|discriminate].
  - exact Hval.
  - rewrite Hpc. cbn. lia.
  - rewrite Hpc. discriminate.
  - left. cbn. split; [reflexivity|discriminate].
  - by rewrite Hpc.
Qed.

Lemma resume_inv (s s' : system) (i : nat) (f : UploadFile) (p : pc)
    (state : gmap string value) (r : reply) :
  Inv s -> tasks s !! i = Some (mkTask f p (Some state)) ->
  resume split_documents i f p state r (emit [AResume i r] s) = Some s' ->
  Inv s'.
Proof.
  intros HI Hi Hres.
  pose proof (inv_value _ _ _ _ HI) as Hval.
  pose proof (inv_jobs _ _ _ _ HI i _ Hi) as Hjob. cbn [t_file t_pc t_state] in Hjob.
  destruct (admitted p) eqn:Hadm; [|by destruct p, r].
  apply job_at_stage_inv in Hjob as (Hpdf & h & Hp & Hst & Hlog); [|exact Hadm].
  injection Hst as ->. subst p.
  assert (Hfso : alone files i ->
            fs s !! temp_path f = Some (file f)).
  { intros Hal. destruct (inv_fs _ _ _ _ HI i _ Hi Hal) as [H1 _]. apply H1.
    by destruct h. }
  destruct h as [|pages|pages], r as [pages'| |result|msg]; cbn in Hres;
    try discriminate; injection Hres as <-.
  - (* the loader returned *)
    unfold emit, put_task. cbn [tasks semaphore fs log]. rewrite <- app_assoc.
    apply (inv_local s i _ (mkTask f (AwaitIndex (split_documents pages'))
                              (Some (initial_state (temp_path f)))) _ _ _ HI Hi).
    + reflexivity.
    + repeat constructor.
    + reflexivity.
    + rewrite Hlog. by apply (at_stage split_documents i f _ (HIndex pages')).
    + intros Hal. split; cbn; [auto|discriminate].
    + exact Hval.
    + reflexivity.
    + discriminate.
    + left. cbn. split; [reflexivity|discriminate].
    + reflexivity.
  - by apply (leave_inv s i f HLoad (Fault msg) (inl (Exception msg)));
      [| | | |apply final_fault].
  - (* the vector store acknowledged *)
    change (history_state split_documents f (HIndex pages))
      with (initial_state (temp_path f)).
    rewrite parse_resume_call_merged.
    unfold emit, put_task. cbn [tasks semaphore fs log]. rewrite <- app_assoc.
    apply (inv_local s i _
             (mkTask f AwaitExtract
                (Some (history_state split_documents f (HExtract pages)))) _ _ _ HI Hi).
    + reflexivity.
    + repeat constructor.
    + reflexivity.
    + rewrite Hlog. by apply (at_stage split_documents i f _ (HExtract pages)).
    + intros Hal. split; cbn; [auto|discriminate].
    + exact Hval.
    + reflexivity.
    + discriminate.
    + left. cbn. split; [reflexivity|discriminate].
    + reflexivity.
  - by apply (leave_inv s i f (HIndex pages) (Fault msg) (inl (Exception msg)));
      [| | | |apply final_fault].
  - (* the model returned *)
    rewrite parsed_data_of_result.
    by apply (leave_inv s i f (HExtract pages) (ExtractReturn result) (inr result));
      [| | | |apply final_result].
  - by apply (leave_inv s i f (HExtract pages) (Fault msg) (inl (Exception msg)));
      [| | | |apply final_fault].
Qed.

(** Every step of the event loop preserves the invariant. *)
Lemma step_inv (s s' : system) (e : event) :
  Inv s -> step split_documents e s = Some s' -> Inv s'.
Proof.
  intros HI Hstep. destruct e as [i|i r]; cbn in Hstep.
  - destruct (tasks s !! i) as [t|] eqn:Hi; [|discriminate].
    destruct (t_pc t) eqn:Hpc; try discriminate; injection Hstep as <-.
    + by apply start_inv.
    + by apply enter_body_inv.
  - destruct (tasks s !! i) as [[f p [state|]]|] eqn:Hi; try discriminate.
    by eapply resume_inv.
Qed.

Lemma init_lookup (fs0 : gmap string (list Byte.byte)) (i : nat) (t : task) :
  tasks (init c fs0 files) !! i = Some t ->
  t_pc t = Created /\ t_state t = None /\ files !! i = Some (t_file t).
Proof.
  unfold init. cbn [tasks]. revert i.
  induction files as [|f fl IH]; intros [|i] H; try discriminate.
  - by injection H as <-.
  - by apply IH.
Qed.

Lemma init_count (p : pc -> bool) (fl : list UploadFile) :
  p Created = false ->
  count_pc p (map (fun f => mkTask f Created None) fl) = O.
Proof. intros Hp. induction fl as [|f fl IH]; cbn; [reflexivity|]. by rewrite Hp, IH. Qed.

Lemma init_inv (fs0 : gmap string (list Byte.byte)) :
  0 <= c -> Inv (init c fs0 files).
Proof.
  intros Hc. split.
  - unfold init. cbn [tasks]. rewrite map_map. cbn. apply map_id.
  - exact Hc.
  - unfold init. cbn [tasks semaphore sem_value]. rewrite init_count by reflexivity. lia.
  - apply NoDup_nil_2.
  - intros i. cbn [semaphore init sem_waiters]. split; [by intros ?%elem_of_nil|].
    intros (t & Ht & Hpc). apply init_lookup in Ht as [Ht _]. congruence.
  - intros i t Ht. apply init_lookup in Ht as (-> & -> & _). apply at_created.
  - intros i t Ht _. apply init_lookup in Ht as (Hpc & _ & _). unfold fs_ok.
    rewrite Hpc. split; discriminate.
  - unfold init. cbn [tasks log]. by rewrite init_count.
Qed.

(** The invariant holds in every reachable state. *)
Lemma reachable_inv (fs0 : gmap string (list Byte.byte)) (s : system) :
  0 <= c -> reachable split_documents c fs0 files s -> Inv s.
Proof.
  intros Hc. induction 1 as [|s e s' _ IH Hstep].
  - by apply init_inv.
  - by eapply step_inv.
Qed.

Lemma exec_reachable (fs0 : gmap string (list Byte.byte)) (tr : list event)
    (s s' : system) :
  reachable split_documents c fs0 files s -> exec split_documents tr s = Some s' ->
  reachable split_documents c fs0 files s'.
Proof.
  revert s. induction tr as [|e tr IH]; intros s Hs Hex; cbn in Hex.
  - by injection Hex as <-.
  - destruct (step split_documents e s) as [s1|] eqn:Hstep; [|discriminate].
    eapply IH; [|exact Hex]. by eapply reach_step.
Qed.

End Preservation.

(** ** The results of a batch *)

Lemma gather_done (s : system) (results : list outcome) :
  gather s = Some results ->
  Forall2 (fun t o => t_pc t = Done o) (tasks s) results.
Proof.
  unfold gather. revert results.
  induction (tasks s) as [|x l IH]; intros results H; cbn in H.
  - injection H as <-. constructor.
  - destruct (t_pc x) as [| | | | | |o] eqn:Hpc; try discriminate. cbn in H.
    destruct (mapM _ l) as [rest|] eqn:Hrest; [|discriminate]. cbn in H.
    injection H as <-. constructor; [exact Hpc|]. by apply IH.
Qed.

Lemma collect_app (results : list outcome) (acc : list ResumeData) :
  collect results acc = acc ++ successes results.
Proof.
  revert acc. induction results as [|[d|e] rest IH]; intros acc; cbn.
  - by rewrite app_nil_r.
  - rewrite IH. by rewrite <- app_assoc.
  - apply IH.
Qed.

Lemma batch_finish_successes (s : system) :
  batch_finish s = successes <$> gather s.
Proof.
  unfold batch_finish. destruct (gather s) as [results|]; [|reflexivity].
  cbn. by rewrite collect_app.
Qed.

Lemma successes_sublist (results : list outcome) :
  map Returned (successes results) `sublist_of` results.
Proof.
  induction results as [|[d|e] rest IH]; cbn.
  - constructor.
  - by apply sublist_skip.
  - by apply sublist_cons.
Qed.

Lemma successes_failures_length (results : list outcome) :
  (length (successes results) + length (failures results) = length results)%nat.
Proof.
  induction results as [|[d|e] rest IH]; [reflexivity| |].
  - change (successes (Returned d :: rest)) with (d :: successes rest).
    change (failures (Returned d :: rest)) with (failures rest). cbn [length]. lia.
  - change (successes (Raised e :: rest)) with (successes rest).
    change (failures (Raised e :: rest)) with (e :: failures rest). cbn [length]. lia.
Qed.


(** ** What a step changes *)

Section Frame.

Variable split_documents : list Document -> list Document.

Lemma leave_tasks (s : system) (i : nat) (f : UploadFile)
    (st : option (gmap string value)) (r : exn + ResumeData) :
  tasks (leave i f st r s)
  = <[i := mkTask f (Done (outcome_of f r)) st]> (tasks (release s)).
Proof.
  unfold leave. cbn [emit put_task tasks].
  by destruct (fs (emit [ARelease i] (release s)) !! temp_path f).
Qed.

Lemma release_fs (s : system) : fs (release s) = fs s.
Proof.
  unfold release, wake_up_next. cbn. by destruct (sem_waiters (semaphore s)).
Qed.

Lemma release_log (s : system) : log (release s) = log s.
Proof.
  unfold release, wake_up_next. cbn. by destruct (sem_waiters (semaphore s)).
Qed.

Lemma release_length (s : system) : length (tasks (release s)) = length (tasks s).
Proof.
  unfold release, wake_up_next. cbn. destruct (sem_waiters (semaphore s)); cbn;
    [reflexivity|]. apply length_alter.
Qed.

Lemma release_lookup (s : system) (j : nat) :
  tasks (release s) !! j = tasks s !! j \/
  (head (sem_waiters (semaphore s)) = Some j /\
   tasks (release s) !! j = with_pc Woken <$> tasks s !! j).
Proof.
  unfold release, wake_up_next. cbn.
  destruct (sem_waiters (semaphore s)) as [|w ws]; cbn; [by left|].
  destruct (decide (w = j)) as [->|Hne].
  - right. split; [reflexivity|]. apply list_lookup_alter_eq.
  - left. by apply list_lookup_alter_ne.
Qed.

Lemma release_emit (s : system) (acts : list action) :
  tasks (release (emit acts s)) = tasks (release s).
Proof.
  unfold release, wake_up_next, emit. cbn. by destruct (sem_waiters (semaphore s)).
Qed.

Lemma leave_fs (s : system) (i : nat) (f : UploadFile)
    (st : option (gmap string value)) (r : exn + ResumeData) :
  fs (leave i f st r s) = delete (temp_path f) (fs s).
Proof.
  unfold leave. cbn [emit put_task put_fs fs]. rewrite release_fs.
  destruct (fs s !! temp_path f) eqn:Hp; cbn [emit put_task put_fs fs].
  - reflexivity.
  - rewrite release_fs. by rewrite (delete_id _ _ Hp).
Qed.

Lemma leave_log (s : system) (i : nat) (f : UploadFile)
    (st : option (gmap string value)) (r : exn + ResumeData) :
  log (leave i f st r s)
  = log s ++ ARelease i :: removal i f s ++ [AOutcome i (outcome_of f r)].
Proof.
  unfold leave, removal. cbn [emit put_task put_fs fs log]. rewrite release_fs.
  destruct (fs s !! temp_path f); cbn [emit put_task put_fs fs log];
    rewrite release_log, <- ?app_assoc; reflexivity.
Qed.

(** What any step does: it rewrites the record of its own task, perhaps
    after the release of the gate has woken a waiter; it leaves every
    path but its own temporary file alone; it appends actions of its own
    job to the log. *)
Lemma step_form (e : event) (s s' : system) :
  step split_documents e s = Some s' ->
  exists t t' (released : bool) acts,
    tasks s !! target e = Some t /\
    t_file t' = t_file t /\
    tasks s' = <[target e := t']> (if released then tasks (release s) else tasks s) /\
    (released = true -> admitted (t_pc t) = true /\ is_done (t_pc t') = true) /\
    (forall q, q <> temp_path (t_file t) -> fs s' !! q = fs s !! q) /\
    log s' = log s ++ acts /\
    Forall (fun a => owner a = target e) acts /\
    (weight (t_pc t') < weight (t_pc t))%nat.
Proof.
  intros Hstep. destruct e as [i|i r]; cbn [target]; cbn in Hstep.
  - destruct (tasks s !! i) as [t|] eqn:Hi; [|discriminate].
    exists t. destruct (t_pc t) eqn:Hpc; try discriminate; injection Hstep as <-.
    + unfold start. destruct (endswith _ _); cbn [negb]; [destruct (locked _)|].
      * exists (mkTask (t_file t) WaitSlot None), false. eexists.
        split; [reflexivity|]. split; [reflexivity|]. split; [reflexivity|].
        split; [discriminate|]. split; [intros q Hq; by apply lookup_insert_ne|].
        split; [reflexivity|]. split; [repeat constructor|cbn; lia].
      * exists (mkTask (t_file t) AwaitLoad (Some (initial_state (temp_path (t_file t))))),
          false. eexists.
        split; [reflexivity|]. split; [reflexivity|]. split; [reflexivity|].
        split; [discriminate|]. split; [intros q Hq; by apply lookup_insert_ne|].
        split; [cbn; by rewrite <- app_assoc|].
        split; [repeat constructor|cbn; lia].
      * eexists (mkTask (t_file t) (Done _) None), false. eexists.
        split; [reflexivity|]. split; [reflexivity|]. split; [reflexivity|].
        split; [discriminate|]. split; [reflexivity|].
        split; [reflexivity|]. split; [repeat constructor|cbn; lia].
    + exists (mkTask (t_file t) AwaitLoad (Some (initial_state (temp_path (t_file t))))),
        false. eexists.
      split; [reflexivity|]. split; [reflexivity|]. split; [reflexivity|].
      split; [discriminate|]. split; [reflexivity|].
      split; [reflexivity|]. split; [repeat constructor|cbn; lia].
  - destruct (tasks s !! i) as [[f p [state|]]|] eqn:Hi; try discriminate.
    exists (mkTask f p (Some state)).
    assert (Hleave : forall st res,
      admitted p = true ->
      exists t' (released : bool) acts,
        Some (mkTask f p (Some state)) = Some (mkTask f p (Some state)) /\
        t_file t' = f /\
        tasks (leave i f st res (emit [AResume i r] s))
          = <[i := t']> (if released then tasks (release s) else tasks s) /\
        (released = true -> admitted p = true /\ is_done (t_pc t') = true) /\
        (forall q, q <> temp_path f ->
           fs (leave i f st res (emit [AResume i r] s)) !! q = fs s !! q) /\
        log (leave i f st res (emit [AResume i r] s)) = log s ++ acts /\
        Forall (fun a => owner a = i) acts /\
        (weight (t_pc t') < weight p)%nat).
    { intros st res Hadm.
      exists (mkTask f (Done (outcome_of f res)) st), true. eexists.
      split; [reflexivity|]. split; [reflexivity|].
      split; [by rewrite leave_tasks, release_emit|]. split; [by intros _|].
      split; [intros q Hq; rewrite leave_fs; by apply lookup_delete_ne|].
      split; [rewrite leave_log; cbn [emit log]; by rewrite <- app_assoc|].
      split; [|destruct p; try discriminate; cbn; lia].
      repeat constructor. unfold removal.
      destruct (fs _ !! _); repeat constructor. }
    destruct p, r; cbn in Hstep; try discriminate.
    + injection Hstep as <-.
      eexists (mkTask f (AwaitIndex _) (Some state)), false. eexists.
      split; [reflexivity|]. split; [reflexivity|]. split; [reflexivity|].
      split; [discriminate|]. split; [reflexivity|].
      split; [cbn; by rewrite <- app_assoc|]. split; [repeat constructor|cbn; lia].
    + injection Hstep as <-. by apply Hleave.
    + destruct (parse_resume_call _); injection Hstep as <-; [by apply Hleave|].
      eexists (mkTask f AwaitExtract (Some _)), false. eexists.
      split; [reflexivity|]. split; [reflexivity|]. split; [reflexivity|].
      split; [discriminate|]. split; [reflexivity|].
      split; [cbn; by rewrite <- app_assoc|]. split; [repeat constructor|cbn; lia].
    + injection Hstep as <-. by apply Hleave.
    + injection Hstep as <-. by apply Hleave.
    + injection Hstep as <-. by apply Hleave.
Qed.

Lemma leave_queue_ok (s : system) (i : nat) (f : UploadFile)
    (st : option (gmap string value)) (r : exn + ResumeData) (acts : list action) :
  queue_ok s -> queue_ok (leave i f st r (emit acts s)).
Proof.
  unfold queue_ok, leave, release, wake_up_next, emit, put_sem, put_task, put_fs.
  cbn [semaphore sem_waiters sem_value tasks fs log].
  destruct (sem_waiters (semaphore s)) as [|w ws] eqn:Hws;
    cbn [semaphore sem_waiters sem_value tasks fs log]; intros Hq;
    destruct (fs s !! temp_path f); cbn [semaphore sem_waiters sem_value];
    try congruence.
  all: intros _; rewrite Hq by discriminate; lia.
Qed.

(** No step leaves a job queued while a slot is available. *)
Lemma step_queue_ok (e : event) (s s' : system) :
  queue_ok s -> step split_documents e s = Some s' -> queue_ok s'.
Proof.
  intros Hq Hstep. destruct e as [i|i r]; cbn in Hstep.
  - destruct (tasks s !! i) as [t|] eqn:Hi; [|discriminate].
    destruct (t_pc t) eqn:Hpc; try discriminate; injection Hstep as <-.
    + unfold start. destruct (endswith _ _); cbn [negb]; [|exact Hq].
      destruct (locked _) eqn:Hl; unfold locked in Hl; cbn in Hl.
      * intros _. cbn. apply orb_true_iff in Hl as [Hl|Hl].
        -- by apply Z.eqb_eq in Hl.
        -- apply Hq. intros Hw. rewrite Hw in Hl. discriminate.
      * apply orb_false_iff in Hl as [_ Hl]. apply negb_false_iff in Hl.
        apply bool_decide_eq_true in Hl. intros Hw. cbn in Hw. contradiction.
    + exact Hq.
  - destruct (tasks s !! i) as [[f p [state|]]|] eqn:Hi; try discriminate.
    destruct p, r; cbn in Hstep; try discriminate;
      try (injection Hstep as <-; first [exact Hq|by apply leave_queue_ok]).
    destruct (parse_resume_call _); injection Hstep as <-;
      [by apply leave_queue_ok|exact Hq].
Qed.

Lemma remaining_insert (l : list task) (i : nat) (t t' : task) :
  l !! i = Some t ->
  (remaining (<[i := t']> l) + weight (t_pc t) = remaining l + weight (t_pc t'))%nat.
Proof.
  revert i. induction l as [|x l IH]; intros [|i] H; try discriminate.
  - injection H as ->. cbn. lia.
  - specialize (IH i H).
    change (<[S i := t']> (x :: l)) with (x :: <[i := t']> l).
    cbn [remaining]. lia.
Qed.

Lemma count_pc_zero (p : pc -> bool) (l : list task) (i : nat) (t : task) :
  count_pc p l = O -> l !! i = Some t -> p (t_pc t) = false.
Proof.
  revert i. induction l as [|x l IH]; intros [|i] Hc H; try discriminate.
  - injection H as ->. cbn in Hc. destruct (p (t_pc t)); [discriminate|reflexivity].
  - cbn in Hc. apply (IH i); [|exact H]. destruct (p (t_pc x)); [discriminate|exact Hc].
Qed.

Lemma count_pc_pos (p : pc -> bool) (l : list task) :
  count_pc p l <> O -> exists i t, l !! i = Some t /\ p (t_pc t) = true.
Proof.
  induction l as [|x l IH]; cbn; [congruence|]. intros Hc.
  destruct (p (t_pc x)) eqn:Hx.
  - by exists O, x.
  - destruct (IH Hc) as (i & t & Hi & Hp). by exists (S i), t.
Qed.

End Frame.

(** ** The claims *)

Section Claims.

Variable split_documents : list Document -> list Document.
Variable c : Z.
Variable fs0 : gmap string (list Byte.byte).
Variable files : list UploadFile.

Abbreviation reachable := (reachable split_documents c fs0 files).
Abbreviation step := (step split_documents).


Lemma job_shape (s : system) (i : nat) (f : UploadFile) (p : pc)
    (st : option (gmap string value)) :
  0 <= c -> reachable s -> tasks s !! i = Some (mkTask f p st) ->
  job_at split_documents i f (alone files i) p st (proj i (log s)).
Proof.
  intros Hc Hs Hi.
  exact (inv_jobs _ _ _ _ (reachable_inv _ _ _ _ _ Hc Hs) i _ Hi).
Qed.

Lemma reachable_queue_ok (s : system) : reachable s -> queue_ok s.
Proof.
  induction 1 as [|s e s' _ IH Hstep].
  - intros Hw. by cbn in Hw.
  - by eapply step_queue_ok.
Qed.

Lemma release_remaining (s : system) :
  Inv split_documents c files s ->
  (remaining (tasks (release s)) <= remaining (tasks s))%nat.
Proof.
  intros HI. unfold release, wake_up_next. cbn.
  destruct (sem_waiters (semaphore s)) as [|w ws] eqn:Hws; cbn; [lia|].
  destruct (proj1 (inv_waiters _ _ _ _ HI w)) as (tw & Htw & Hpc).
  { rewrite Hws. left. }
  rewrite (alter_as_insert _ _ _ _ Htw).
  pose proof (remaining_insert (tasks s) w tw (with_pc Woken tw) Htw) as Hr.
  rewrite Hpc in Hr. cbn in Hr. lia.
Qed.

(** Every step brings the batch closer to its end. *)
Lemma step_decreases (s s' : system) (e : event) :
  Inv split_documents c files s -> step e s = Some s' ->
  (remaining (tasks s') < remaining (tasks s))%nat.
Proof.
  intros HI Hstep.
  destruct (step_form _ _ _ _ Hstep)
    as (t & t' & released & acts & Hi & _ & Ht & Hrel & _ & _ & _ & Hw).
  rewrite Ht. destruct released.
  - destruct (Hrel eq_refl) as [Hadm _].
    assert (Hi' : tasks (release s) !! target e = Some t).
    { destruct (release_lookup s (target e)) as [->|[Hhd _]]; [exact Hi|].
      assert (Hin : target e ∈ sem_waiters (semaphore s)).
      { destruct (sem_waiters (semaphore s)); [discriminate|].
        injection Hhd as ->. left. }
      apply (inv_waiters _ _ _ _ HI) in Hin as (u & Hu & Hpc).
      rewrite Hi in Hu. injection Hu as <-. rewrite Hpc in Hadm. discriminate. }
    pose proof (remaining_insert _ _ _ t' Hi').
    pose proof (release_remaining s HI). lia.
  - pose proof (remaining_insert _ _ _ t' Hi). lia.
Qed.

(** A task that is neither queued nor done can be moved by the loop. *)
Lemma runnable_enabled (s : system) (i : nat) (t : task) :
  Inv split_documents c files s -> tasks s !! i = Some t ->
  runnable (t_pc t) = true -> exists e s', step e s = Some s'.
Proof.
  intros HI Hi Hrun. pose proof (inv_jobs _ _ _ _ HI i t Hi) as Hjob.
  destruct t as [f p st]. cbn [t_file t_pc t_state] in *.
  destruct p; try discriminate.
  - exists (Run i). eexists. cbn. by rewrite Hi.
  - exists (Run i). eexists. cbn. by rewrite Hi.
  - apply job_at_stage_inv in Hjob as (_ & h & _ & -> & _); [|reflexivity].
    exists (Resume i (Fault "")). eexists. cbn. by rewrite Hi.
  - apply job_at_stage_inv in Hjob as (_ & h & _ & -> & _); [|reflexivity].
    exists (Resume i (Fault "")). eexists. cbn. by rewrite Hi.
  - apply job_at_stage_inv in Hjob as (_ & h & _ & -> & _); [|reflexivity].
    exists (Resume i (Fault "")). eexists. cbn. by rewrite Hi.
Qed.

Lemma gather_all_done (s : system) :
  (forall i t, tasks s !! i = Some t -> is_done (t_pc t) = true) ->
  exists results, gather s = Some results.
Proof.
  unfold gather. induction (tasks s) as [|x l IH]; intros Hall.
  - by exists [].
  - destruct IH as [results Hres]; [intros i t Hi; by apply (Hall (S i))|].
    pose proof (Hall O x eq_refl) as Hx. destruct (t_pc x) as [| | | | | |o] eqn:Hpc;
      try discriminate.
    exists (o :: results). cbn. rewrite Hpc. cbn. by rewrite Hres.
Qed.

(** When the loop can move no task, every task is done: the gate never
    strands a queued job. *)
Lemma quiescent_done (s : system) :
  1 <= c -> Inv split_documents c files s -> queue_ok s ->
  count_pc runnable (tasks s) = O ->
  forall i t, tasks s !! i = Some t -> is_done (t_pc t) = true.
Proof.
  intros Hc HI Hq Hrun i t Hi.
  pose proof (count_pc_zero _ _ _ _ Hrun Hi) as Hnr.
  destruct (t_pc t) eqn:Hpc; try discriminate; [|reflexivity].
  exfalso.
  assert (Hin : i ∈ sem_waiters (semaphore s)).
  { apply (inv_waiters _ _ _ _ HI). eauto. }
  assert (Hv : sem_value (semaphore s) = 0).
  { apply Hq. intros Hw. rewrite Hw in Hin. by apply elem_of_nil in Hin. }
  pose proof (inv_slots _ _ _ _ HI) as Hsl.
  pose proof (count_pc_mono occupies runnable (tasks s)) as Hmono.
  assert ((count_pc occupies (tasks s) <= count_pc runnable (tasks s))%nat).
  { apply Hmono. by intros []. }
  lia.
Qed.

(** Whatever happened so far, the batch can be run to its end: from every
    reachable state some continuation leads to a state where [gather]
    has its results. *)
Lemma can_finish (s : system) :
  1 <= c -> reachable s ->
  exists tr s' results,
    exec split_documents tr s = Some s' /\ gather s' = Some results.
Proof.
  intros Hc. remember (remaining (tasks s)) as n eqn:Hn. revert s Hn.
  induction n as [n IH] using lt_wf_ind. intros s -> Hs.
  assert (HI : Inv split_documents c files s).
  { apply (reachable_inv _ _ _ fs0); [lia|exact Hs]. }
  destruct (Nat.eq_dec (count_pc runnable (tasks s)) O) as [Hz|Hnz].
  - destruct (gather_all_done s) as [results Hres].
    { apply quiescent_done; auto. by apply reachable_queue_ok. }
    by exists [], s, results.
  - apply count_pc_pos in Hnz as (i & t & Hi & Hrun).
    destruct (runnable_enabled s i t HI Hi Hrun) as (e & s1 & Hstep).
    destruct (IH (remaining (tasks s1)) (step_decreases _ _ _ HI Hstep) s1 eq_refl)
      as (tr & s' & results & Hex & Hres).
    { by eapply reach_step. }
    exists (e :: tr), s', results. cbn. by rewrite Hstep.
Qed.

(** C5: a batch above the limit is refused before any task exists; a job
    whose file name does not end in ".pdf" is refused by its first step,
    which touches neither the gate nor the file system, and the only
    action that job ever performs is to report the refusal: it creates
    no file, asks for no slot and calls no collaborator. *)
Theorem rejection_precedes_work (s : system) :
  0 <= c -> reachable s ->
  (forall fs1 fl tr, (100 < length fl)%nat ->
     batch_start fs1 fl = inl batch_limit_exceeded /\
     batch_upload_resumes split_documents fs1 fl tr = Some (inl batch_limit_exceeded)) /\
  (forall i t, tasks s !! i = Some t ->
     endswith (filename (t_file t)) ".pdf" = false ->
     let o := Raised (not_a_pdf (t_file t)) in
     (t_pc t = Created /\ proj i (log s) = [] /\
      step (Run i) s =
        Some (mkSystem (<[i := mkTask (t_file t) (Done o) None]> (tasks s))
                       (semaphore s) (fs s) (log s ++ [AOutcome i o]))) \/
     (t_pc t = Done o /\ proj i (log s) = [AOutcome i o])).
Proof.
  intros Hc Hs. split.
  - intros fs1 fl tr Hlen. unfold batch_upload_resumes, batch_start.
    by rewrite (proj2 (Nat.ltb_lt _ _) Hlen).
  - intros i [f p st] Hi Hpdf o. cbn [t_file t_pc] in *.
    pose proof (job_shape s i f p st Hc Hs Hi) as Hjob.
    revert Hjob. generalize (proj i (log s)). intros l Hjob.
    inversion Hjob; subst; try congruence.
    + left. split; [reflexivity|]. split; [reflexivity|].
      cbn. rewrite Hi. cbn. unfold start. by rewrite Hpdf.
    + right. by split.
Qed.




(** C7: when the collaborator awaited by a stage fails, the step that
    handles the failure leaves the dictionary of the job as it was, key by
    key; what it produces is the failure, as the outcome of the job. *)
Theorem failure_keeps_context (s s' : system) (i : nat) (t : task) (msg : string) :
  step (Resume i (Fault msg)) s = Some s' -> tasks s !! i = Some t ->
  exists t',
    tasks s' !! i = Some t' /\
    t_state t' = t_state t /\
    (forall st st' k, t_state t = Some st -> t_state t' = Some st' -> st' !! k = st !! k) /\
    t_pc t' = Done (Raised (processing_error (t_file t) (Exception msg))).
Proof.
  intros Hstep Hi. cbn in Hstep. rewrite Hi in Hstep.
  assert (Hlen : (i < length (tasks (release (emit [AResume i (Fault msg)] s))))%nat).
  { rewrite release_length. cbn. by eapply lookup_lt_Some. }
  destruct t as [f p [state|]]; [|discriminate].
  exists (mkTask f (Done (Raised (processing_error f (Exception msg)))) (Some state)).
  split; [|split; [reflexivity|split; [|reflexivity]]].
  - destruct p; cbn in Hstep; try discriminate; injection Hstep as <-;
      rewrite leave_tasks; by apply list_lookup_insert_eq.
  - intros st st' k. cbn. congruence.
Qed.

(** C8, as the code has it: a step of one job leaves the record of every
    other job alone, its dictionary included (a job waiting at the gate
    may be handed a slot, nothing else); and when the two jobs have
    different file names their temporary files are different paths and
    the step leaves the other job's file as it is. *)
Theorem jobs_do_not_interfere (s s' : system) (e : event) (j : nat) (u : task) :
  step e s = Some s' -> j <> target e -> tasks s !! j = Some u ->
  exists u',
    tasks s' !! j = Some u' /\
    t_file u' = t_file u /\
    t_state u' = t_state u /\
    (t_pc u' = t_pc u \/ t_pc u' = Woken) /\
    (forall t, tasks s !! target e = Some t ->
       filename (t_file t) <> filename (t_file u) ->
       temp_path (t_file t) <> temp_path (t_file u) /\
       fs s' !! temp_path (t_file u) = fs s !! temp_path (t_file u)).
Proof.
  intros Hstep Hne Hj.
  destruct (step_form _ _ _ _ Hstep)
    as (t & t' & released & acts & Hi & Hf & Ht & _ & Hfs & _).
  assert (Hpaths : forall t0, tasks s !! target e = Some t0 ->
            filename (t_file t0) <> filename (t_file u) ->
            temp_path (t_file t0) <> temp_path (t_file u) /\
            fs s' !! temp_path (t_file u) = fs s !! temp_path (t_file u)).
  { intros t0 Ht0 Hnames. rewrite Hi in Ht0. injection Ht0 as <-.
    assert (Hp : temp_path (t_file t) <> temp_path (t_file u)).
    { intros Heq. by apply temp_path_inj in Heq. }
    split; [exact Hp|]. apply Hfs. congruence. }
  rewrite Ht, list_lookup_insert_ne by congruence.
  destruct released; [|exists u; split_and!; by auto].
  destruct (release_lookup s j) as [->|[_ ->]].
  - exists u. split_and!; by auto.
  - rewrite Hj. exists (with_pc Woken u). split_and!; by auto.
Qed.

(** C10: the list the endpoint returns is made of the results of the jobs
    that returned a record, in the order of the tasks, which is the order
    of the inputs: it is the subsequence of the gathered outcomes that
    keeps the successes and only them. *)
Theorem successes_keep_order (s : system) (l : list ResumeData) :
  batch_finish s = Some l ->
  exists results,
    gather s = Some results /\
    Forall2 (fun t o => t_pc t = Done o) (tasks s) results /\
    l = successes results /\
    map Returned l `sublist_of` results /\
    (forall d, d ∈ l <-> Returned d ∈ results).
Proof.
  rewrite batch_finish_successes. destruct (gather s) as [results|] eqn:Hg;
    [|discriminate]. cbn. intros H. injection H as <-.
  exists results. split; [reflexivity|]. split; [by apply gather_done|].
  split; [reflexivity|]. split; [apply successes_sublist|].
  intros d. unfold successes. rewrite list_elem_of_omap. split.
  - intros ([d'|e] & Hin & Heq); [|discriminate]. by injection Heq as <-.
  - intros Hin. by exists (Returned d).
Qed.

(** Once [gather] has its results there is one outcome per submitted
    file, in the order of the files. *)
Lemma gathered_outcomes (s : system) (results : list outcome) :
  0 <= c -> reachable s -> gather s = Some results ->
  length results = length files /\
  (forall i f, files !! i = Some f ->
     exists t o, tasks s !! i = Some t /\ t_file t = f /\
                 t_pc t = Done o /\ results !! i = Some o).
Proof.
  intros Hc Hs Hg.
  pose proof (reachable_inv _ _ _ _ _ Hc Hs) as HI.
  pose proof (inv_files _ _ _ _ HI) as Hfiles.
  pose proof (gather_done _ _ Hg) as Hall.
  assert (Hlen : length results = length files).
  { rewrite <- Hfiles, length_map. symmetry. by eapply Forall2_length. }
  split; [exact Hlen|].
  intros i f Hf. rewrite <- Hfiles in Hf.
  destruct (tasks s !! i) as [t|] eqn:Hi.
  - rewrite (lookup_map_file _ _ _ Hi) in Hf. injection Hf as <-.
    destruct (Forall2_lookup_l _ _ _ _ _ Hall Hi) as (o & Ho & Hpc).
    by exists t, o.
  - apply lookup_ge_None in Hi. apply lookup_lt_Some in Hf.
    rewrite length_map in Hf. lia.
Qed.


End Claims.

(** ** The endpoint *)

(** C1, as the code has it: a batch above the limit is refused; a batch
    within the limit can always be run to its end, and when the endpoint
    returns, [gather] held one outcome per submitted file, the i-th being
    that of the i-th file, of which the endpoint returns the successful
    ones only, in that order: the length of the list it returns is the
    number of submitted files minus the number of jobs that raised. *)
Theorem batch_returns_successes (split_documents : list Document -> list Document)
    (fs0 : gmap string (list Byte.byte)) (files : list UploadFile) :
  (length files <= 100)%nat ->
  (exists tr l, batch_upload_resumes split_documents fs0 files tr = Some (inr l)) /\
  (forall tr r, batch_upload_resumes split_documents fs0 files tr = Some r ->
     exists s results,
       exec split_documents tr (init CONCURRENCY_LIMIT fs0 files) = Some s /\
       gather s = Some results /\
       length results = length files /\
       (forall i f, files !! i = Some f ->
          exists t o, tasks s !! i = Some t /\ t_file t = f /\
                      t_pc t = Done o /\ results !! i = Some o) /\
       r = inr (successes results) /\
       (length (successes results) + length (failures results) = length files)%nat).
Proof.
  intros Hlen. unfold batch_upload_resumes, batch_start.
  rewrite (proj2 (Nat.ltb_ge _ _) Hlen).
  assert (Hc : 1 <= CONCURRENCY_LIMIT) by (unfold CONCURRENCY_LIMIT; lia).
  split.
  - destruct (can_finish split_documents CONCURRENCY_LIMIT fs0 files
                (init CONCURRENCY_LIMIT fs0 files) Hc (reach_init _ _ _ _))
      as (tr & s & results & Hex & Hg).
    exists tr, (successes results). rewrite Hex, batch_finish_successes, Hg.
    reflexivity.
  - intros tr r.
    destruct (exec split_documents tr (init CONCURRENCY_LIMIT fs0 files))
      as [s|] eqn:Hex; [|discriminate].
    rewrite batch_finish_successes.
    destruct (gather s) as [results|] eqn:Hg; [|discriminate].
    cbn. intros Hr. injection Hr as <-.
    assert (Hs : reachable split_documents CONCURRENCY_LIMIT fs0 files s).
    { eapply exec_reachable; [apply reach_init|exact Hex]. }
    destruct (gathered_outcomes split_documents CONCURRENCY_LIMIT fs0 files s results)
      as [Hl Hout]; [lia|exact Hs|exact Hg|].
    exists s, results. split; [reflexivity|]. split; [exact Hg|].
    split; [exact Hl|]. split; [exact Hout|]. split; [reflexivity|].
    rewrite <- Hl. apply successes_failures_length.
Qed.

(** ** The claims on sample batches *)

Lemma sample_reachable (c : Z) (files : list UploadFile) (tr : list event) (s : system) :
  exec no_split tr (init c ∅ files) = Some s -> reachable no_split c ∅ files s.
Proof. intros H. eapply exec_reachable; [apply reach_init|exact H]. Qed.

(** The batch of three files returns one record: the failed jobs are not
    in the list. *)
Lemma batch_drops_failed_jobs :
  let s := run_from CONCURRENCY_LIMIT mixed_files mixed_trace in
  batch_start ∅ mixed_files = inr (init CONCURRENCY_LIMIT ∅ mixed_files) /\
  exec no_split mixed_trace (init CONCURRENCY_LIMIT ∅ mixed_files) = Some s /\
  batch_finish s = Some [MOCK_RESUME] /\
  batch_upload_resumes no_split ∅ mixed_files mixed_trace = Some (inr [MOCK_RESUME]) /\
  length [MOCK_RESUME] <> length mixed_files.
Proof.
  cbv zeta. split; [reflexivity|]. split; [by vm_compute|].
  split; [by vm_compute|]. split; [by vm_compute|]. cbn. lia.
Qed.

Lemma batch_returns_successes_witness :
  (length mixed_files <= 100)%nat /\
  batch_upload_resumes no_split ∅ mixed_files mixed_trace = Some (inr [MOCK_RESUME]) /\
  exists results,
    [MOCK_RESUME] = successes results /\
    (length (successes results) + length (failures results) = length mixed_files)%nat.
Proof.
  split; [cbn; lia|]. split; [by vm_compute|].
  destruct (batch_returns_successes no_split ∅ mixed_files) as [_ Hret]; [cbn; lia|].
  destruct (Hret mixed_trace (inr [MOCK_RESUME]))
    as (s & results & _ & _ & _ & _ & Hr & Hlen); [by vm_compute|].
  exists results. split; [by injection Hr|exact Hlen].
Defined.





Lemma rejection_precedes_work_witness :
  0 <= 1 /\
  reachable no_split 1 ∅ mixed_files mixed_mid_state /\
  endswith "notes.txt" ".pdf" = false /\
  proj 1 (log mixed_mid_state)
  = [AOutcome 1 (Raised (HTTPException 400 "File notes.txt is not a PDF"))].
Proof.
  assert (Hr : reachable no_split 1 ∅ mixed_files mixed_mid_state).
  { apply (sample_reachable 1 mixed_files mixed_midway). by vm_compute. }
  split; [lia|]. split; [exact Hr|]. split; [reflexivity|].
  destruct (rejection_precedes_work no_split 1 ∅ mixed_files mixed_mid_state)
    as [_ Hjob]; [lia|exact Hr|].
  destruct (Hjob 1%nat (mkTask (mkUploadFile "notes.txt" [Byte.x68; Byte.x69])
                         (Done (Raised (not_a_pdf
                                  (mkUploadFile "notes.txt" [Byte.x68; Byte.x69]))))
                         None))
    as [(Hpc & _)|(_ & Hlog)]; [by vm_compute|reflexivity|discriminate|exact Hlog].
Defined.


Lemma failure_keeps_context_witness :
  step no_split (Resume 0 (Fault "quota exceeded")) mixed_mid_state
    = Some mixed_fail_state /\
  t_state <$> tasks mixed_mid_state !! 0%nat
    = Some (Some (history_state no_split (mkUploadFile "a.pdf" [Byte.x25; Byte.x50])
                                (HExtract sample_pages))) /\
  exists t',
    tasks mixed_fail_state !! 0%nat = Some t' /\
    t_state t' = Some (history_state no_split (mkUploadFile "a.pdf" [Byte.x25; Byte.x50])
                                     (HExtract sample_pages)).
Proof.
  split; [by vm_compute|]. split; [by vm_compute|].
  destruct (failure_keeps_context no_split mixed_mid_state mixed_fail_state 0%nat
              (mkTask (mkUploadFile "a.pdf" [Byte.x25; Byte.x50]) AwaitExtract
                      (Some (history_state no_split
                               (mkUploadFile "a.pdf" [Byte.x25; Byte.x50])
                               (HExtract sample_pages))))
              "quota exceeded")
    as (t' & Ht' & Hst & _); [by vm_compute|by vm_compute|].
  exists t'. split; [exact Ht'|exact Hst].
Defined.

(** Two jobs of one name have one temporary file: starting the second
    overwrites what the first wrote, and the end of the second removes
    the file while the first still awaits the loader. *)
Lemma same_name_shares_file :
  let f0 := mkUploadFile "test.pdf" [Byte.x01] in
  let f1 := mkUploadFile "test.pdf" [Byte.x02] in
  let s1 := run_from CONCURRENCY_LIMIT same_name_files [Run 0] in
  let s2 := run_from CONCURRENCY_LIMIT same_name_files [Run 0; Run 1] in
  let s3 := run_from CONCURRENCY_LIMIT same_name_files
              [Run 0; Run 1; Resume 1 (Fault "file not found")] in
  same_name_files !! 0%nat = Some f0 /\ same_name_files !! 1%nat = Some f1 /\
  temp_path f0 = temp_path f1 /\
  exec no_split [Run 0] (init CONCURRENCY_LIMIT ∅ same_name_files) = Some s1 /\
  fs s1 !! temp_path f0 = Some (file f0) /\
  step no_split (Run 1) s1 = Some s2 /\
  fs s2 !! temp_path f0 = Some (file f1) /\
  file f1 <> file f0 /\
  step no_split (Resume 1 (Fault "file not found")) s2 = Some s3 /\
  t_pc <$> tasks s3 !! 0%nat = Some AwaitLoad /\
  fs s3 !! temp_path f0 = None.
Proof.
  cbv zeta. split_and!; by vm_compute.
Qed.

Lemma jobs_do_not_interfere_witness :
  step no_split (Resume 0 (Fault "quota exceeded")) mixed_mid_state
    = Some mixed_fail_state /\
  2%nat <> target (Resume 0 (Fault "quota exceeded")) /\
  tasks mixed_mid_state !! 2%nat
    = Some (mkTask (mkUploadFile "b.pdf" [Byte.x25; Byte.x44]) WaitSlot None) /\
  fs mixed_fail_state !! "temp_b.pdf" = fs mixed_mid_state !! "temp_b.pdf".
Proof.
  split; [by vm_compute|]. split; [cbn; lia|]. split; [by vm_compute|].
  destruct (jobs_do_not_interfere no_split mixed_mid_state mixed_fail_state
              (Resume 0 (Fault "quota exceeded")) 2%nat
              (mkTask (mkUploadFile "b.pdf" [Byte.x25; Byte.x44]) WaitSlot None))
    as (u' & _ & _ & _ & _ & Hfs); [by vm_compute|cbn; lia|by vm_compute|].
  destruct (Hfs (mkTask (mkUploadFile "a.pdf" [Byte.x25; Byte.x50]) AwaitExtract
                      (Some (history_state no_split
                               (mkUploadFile "a.pdf" [Byte.x25; Byte.x50])
                               (HExtract sample_pages))))) as [_ Hsame];
    [by vm_compute|discriminate|].
  exact Hsame.
Defined.

Lemma successes_keep_order_witness :
  batch_finish mixed_end_state = Some [MOCK_RESUME] /\
  exists results,
    gather mixed_end_state = Some results /\
    map Returned [MOCK_RESUME] `sublist_of` results.
Proof.
  split; [by vm_compute|].
  destruct (successes_keep_order mixed_end_state [MOCK_RESUME])
    as (results & Hg & _ & _ & Hsub & _); [by vm_compute|].
  exists results. split; [exact Hg|exact Hsub].
Defined.

(** * Further properties of the code *)

(** ** The file-name check *)

Lemma substring_all (s : string) : substring 0 (String.length s) s = s.
Proof. induction s as [|a s IH]; cbn; [reflexivity|]. by rewrite IH. Qed.

Lemma substring_after (p suf : string) :
  substring (String.length p) (String.length suf) (p +:+ suf) = suf.
Proof. induction p as [|a p IH]; cbn; [apply substring_all|exact IH]. Qed.

Lemma substring_cut (s : string) (k : nat) :
  (k <= String.length s)%nat ->
  s = substring 0 k s +:+ substring k (String.length s - k) s.
Proof.
  revert k. induction s as [|a s IH]; intros [|k] Hk; cbn in *; try lia.
  - reflexivity.
  - by rewrite substring_all.
  - change (String a s
            = String a (substring 0 k s +:+ substring k (String.length s - k) s)).
    f_equal. apply IH. lia.
Qed.

Lemma append_length (p q : string) :
  String.length (p +:+ q) = (String.length p + String.length q)%nat.
Proof.
  induction p as [|a p IH]; [reflexivity|].
  change (S (String.length (p +:+ q)) = S (String.length p + String.length q)).
  by rewrite IH.
Qed.

(** X1: the file-name check of [process_single_resume] accepts exactly
    the names that are some stem, possibly empty, followed by the suffix:
    [endswith] holds if and only if the string is a prefix followed by the
    suffix. *)
Theorem endswith_spec (s suffix : string) :
  endswith s suffix = true <-> exists stem, s = stem +:+ suffix.
Proof.
  unfold endswith. split.
  - intros H. apply andb_true_iff in H as [Hle Heq].
    apply Nat.leb_le in Hle. apply String.eqb_eq in Heq.
    exists (substring 0 (String.length s - String.length suffix) s).
    pose proof (substring_cut s (String.length s - String.length suffix)) as Hcut.
    replace (String.length s - (String.length s - String.length suffix))%nat
      with (String.length suffix) in Hcut by lia.
    rewrite Heq in Hcut. apply Hcut. lia.
  - intros [stem ->]. rewrite append_length. apply andb_true_iff. split.
    + apply Nat.leb_le. lia.
    + apply String.eqb_eq.
      replace (String.length stem + String.length suffix - String.length suffix)%nat
        with (String.length stem) by lia.
      apply substring_after.
Qed.

(** ** The query path *)

(** X2: [query_resume] ends in one of three ways, whatever the question.
    It returns the content the model answered, exactly when the retriever
    and then the model answered; the model was then called with the
    retrieved contents joined by newlines and with the question as it
    came.  Or the retriever failed, the model was not called, and the
    exception is an HTTP 500 whose detail is the retriever's message.  Or
    the model failed and the exception is an HTTP 500 carrying the model's
    message.  The dictionary it builds never lacks a key: no [KeyError]
    is turned into an error. *)
Theorem query_resume_cases (question : string) (replies : list qreply) :
  let q := VStr question in
  match query_resume question replies with
  | (calls, Some (inr answer)) =>
      exists docs content rest,
        replies = Retrieved docs :: Answered content :: rest /\
        answer = VStr content /\
        calls = [CallRetrieve q; CallAnswer (join newline (map page_content docs)) q]
  | (calls, Some (inl e)) =>
      exists msg,
        e = HTTPException 500 msg /\
        ((exists rest, replies = QFault msg :: rest /\ calls = [CallRetrieve q]) \/
         (exists docs rest,
            replies = Retrieved docs :: QFault msg :: rest /\
            calls = [CallRetrieve q;
                     CallAnswer (join newline (map page_content docs)) q]))
  | (calls, None) =>
      calls = [CallRetrieve q] /\
        (replies = [] \/ exists content rest, replies = Answered content :: rest) \/
      exists docs,
        calls = [CallRetrieve q; CallAnswer (join newline (map page_content docs)) q] /\
        (replies = [Retrieved docs] \/
         exists x rest, replies = Retrieved docs :: x :: rest /\
                        forall content, x <> Answered content)
  end.
Proof.
  intros q. unfold query_resume, ask_question.
  assert (Hq : query_state question !! "question" = Some q).
  { unfold query_state. rewrite !lookup_insert_ne by discriminate.
    apply lookup_insert_eq. }
  rewrite Hq.
  destruct replies as [|[docs|content|msg] rest].
  - left. split; [reflexivity|by left].
  - destruct rest as [|[docs'|content|msg] rest].
    + right. exists docs. split; [reflexivity|by left].
    + right. exists docs. split; [reflexivity|]. right.
      exists (Retrieved docs'), rest. split; [reflexivity|discriminate].
    + rewrite lookup_singleton_eq. by exists docs, content, rest.
    + exists msg. split; [reflexivity|]. right. by exists docs, rest.
  - left. split; [reflexivity|]. right. by exists content, rest.
  - exists msg. split; [reflexivity|]. left. by exists rest.
Qed.

(** ** The loop over the results *)

Lemma successes_app (l1 l2 : list outcome) :
  successes (l1 ++ l2) = successes l1 ++ successes l2.
Proof. unfold successes. apply omap_app. Qed.

(** X3: in the list the endpoint returns, the record of a successful job
    sits at the position given by the number of successful jobs before
    it: at its own index when no earlier job raised, and shifted down by
    one for every earlier job that raised. *)
Theorem returned_position (results : list outcome) (i : nat) (d : ResumeData) :
  results !! i = Some (Returned d) ->
  collect results [] !! length (successes (take i results)) = Some d /\
  (length (successes (take i results)) + length (failures (take i results)) = i)%nat /\
  (failures (take i results) = [] -> collect results [] !! i = Some d).
Proof.
  intros Hi. rewrite collect_app. cbn [app].
  assert (Hpos : successes results !! length (successes (take i results)) = Some d).
  { assert (Hmid : successes (take i results ++ Returned d :: drop (S i) results)
                   !! length (successes (take i results)) = Some d).
    { rewrite successes_app.
      change (successes (Returned d :: drop (S i) results))
        with (d :: successes (drop (S i) results)).
      by rewrite list_lookup_middle. }
    by rewrite (take_drop_middle _ _ _ Hi) in Hmid. }
  assert (Hlen : (length (successes (take i results))
                  + length (failures (take i results)) = i)%nat).
  { rewrite successes_failures_length. apply length_take_le.
    apply lookup_lt_Some in Hi. lia. }
  split; [exact Hpos|]. split; [exact Hlen|].
  intros Hnone. rewrite Hnone in Hlen. cbn in Hlen.
  assert (Hi' : length (successes (take i results)) = i) by lia.
  by rewrite Hi' in Hpos.
Qed.

Lemma returned_position_witness :
  [Raised (Exception "x"); Returned MOCK_RESUME] !! 1%nat = Some (Returned MOCK_RESUME) /\
  collect [Raised (Exception "x"); Returned MOCK_RESUME] [] !! 0%nat = Some MOCK_RESUME.
Proof.
  split; [reflexivity|].
  apply (returned_position [Raised (Exception "x"); Returned MOCK_RESUME] 1 MOCK_RESUME).
  reflexivity.
Defined.

(** ** Runs of a batch *)

Section Runs.

Variable split_documents : list Document -> list Document.
Variable c : Z.
Variable fs0 : gmap string (list Byte.byte).
Variable files : list UploadFile.

Abbreviation reachable := (reachable split_documents c fs0 files).
Abbreviation step := (step split_documents).
Abbreviation exec := (exec split_documents).


Lemma reachable_exec (s s' : system) (tr : list event) :
  reachable s -> exec tr s = Some s' -> reachable s'.
Proof. apply exec_reachable. Qed.



Lemma count_pc_none (p : pc -> bool) (l : list task) :
  (forall i t, l !! i = Some t -> p (t_pc t) = false) -> count_pc p l = O.
Proof.
  induction l as [|x l IH]; intros Hall; [reflexivity|]. cbn.
  rewrite (Hall O x eq_refl). apply IH. intros i t Hi. by apply (Hall (S i)).
Qed.

(** X5: when the batch is over, whatever failed on the way, the
    semaphore is as it was at the start: its counter is back at the
    capacity, nobody is queued, and the log holds as many releases as
    acquisitions. *)
Theorem gate_restored (s : system) (results : list outcome) :
  0 <= c -> reachable s -> gather s = Some results ->
  sem_value (semaphore s) = c /\
  sem_waiters (semaphore s) = [] /\
  count is_release (log s) = count is_acquire (log s).
Proof.
  intros Hc Hs Hg.
  pose proof (reachable_inv _ _ _ _ _ Hc Hs) as HI.
  assert (Hdone : forall i t, tasks s !! i = Some t -> exists o, t_pc t = Done o).
  { intros i t Hi.
    destruct (Forall2_lookup_l _ _ _ _ _ (gather_done _ _ Hg) Hi) as (o & _ & Hpc).
    by exists o. }
  assert (Hnone : forall p, (forall o, p (Done o) = false) -> count_pc p (tasks s) = O).
  { intros p Hp. apply count_pc_none. intros i t Hi.
    destruct (Hdone i t Hi) as [o ->]. apply Hp. }
  pose proof (inv_slots _ _ _ _ HI) as Hsl.
  pose proof (inv_peak _ _ _ _ HI) as Hpk.
  rewrite (Hnone occupies) in Hsl by reflexivity.
  rewrite (Hnone admitted) in Hpk by reflexivity.
  split; [lia|]. split; [|lia].
  destruct (sem_waiters (semaphore s)) as [|w ws] eqn:Hws; [reflexivity|].
  destruct (proj1 (inv_waiters _ _ _ _ HI w)) as (t & Ht & Hpc); [rewrite Hws; left|].
  destruct (Hdone w t Ht) as [o Ho]. congruence.
Qed.

(** A step is taken by a task that is neither queued nor done. *)
Lemma step_target (e : event) (s s' : system) (t : task) :
  step e s = Some s' -> tasks s !! target e = Some t ->
  t_pc t <> WaitSlot /\ is_done (t_pc t) = false.
Proof.
  intros Hstep Hi. destruct e as [i|i r]; cbn in *; rewrite Hi in Hstep.
  - destruct (t_pc t); try discriminate; by split.
  - destruct t as [f p [state|]]; [|discriminate].
    destruct p, r; cbn in *; try discriminate; by split.
Qed.

(** The record of a task that is done is out of reach of every step. *)
Lemma step_keeps_done (e : event) (s s' : system) (i : nat) (t : task) :
  Inv split_documents c files s -> step e s = Some s' ->
  tasks s !! i = Some t -> is_done (t_pc t) = true ->
  tasks s' !! i = Some t.
Proof.
  intros HI Hstep Hi Hdone.
  destruct (step_form _ _ _ _ Hstep) as (u & u' & released & acts & Hu & _ & Ht & _).
  destruct (decide (i = target e)) as [->|Hne].
  { rewrite Hi in Hu. injection Hu as <-.
    destruct (step_target _ _ _ _ Hstep Hi) as [_ Hnd]. congruence. }
  rewrite Ht, list_lookup_insert_ne by congruence.
  destruct released; [|exact Hi].
  destruct (release_lookup s i) as [->|[Hhd _]]; [exact Hi|].
  assert (Hin : i ∈ sem_waiters (semaphore s)).
  { destruct (sem_waiters (semaphore s)); [discriminate|]. injection Hhd as ->. left. }
  apply (inv_waiters _ _ _ _ HI) in Hin as (t0 & Ht0 & Hpc).
  rewrite Hi in Ht0. injection Ht0 as <-. rewrite Hpc in Hdone. discriminate.
Qed.

(** X6: the outcome of a job is final.  Once a task is done no event can
    resume it, and in every state the batch reaches afterwards the task
    still holds the same outcome and the same dictionary. *)
Theorem outcome_is_final (s s' : system) (tr : list event) (i : nat) (t : task) :
  0 <= c -> reachable s -> tasks s !! i = Some t -> is_done (t_pc t) = true ->
  exec tr s = Some s' ->
  tasks s' !! i = Some t /\
  (forall e, target e = i -> step e s' = None).
Proof.
  intros Hc Hs Hi Hdone Hex.
  assert (Hkeep : tasks s' !! i = Some t).
  { revert s Hs Hi Hex. induction tr as [|e tr IH]; intros s Hs Hi Hex; cbn in Hex.
    - by injection Hex as <-.
    - destruct (step e s) as [s1|] eqn:Hstep; [|discriminate].
      apply (IH s1); [by eapply reach_step| |exact Hex].
      eapply step_keeps_done; eauto. by apply (reachable_inv _ _ _ fs0). }
  split; [exact Hkeep|].
  intros e <-. destruct (step e s') as [s2|] eqn:Hstep; [|reflexivity].
  destruct (step_target _ _ _ _ Hstep Hkeep) as [_ Hnd]. congruence.
Qed.






























End Runs.

(** ** The single upload *)

Section Upload.

Variable split_documents : list Document -> list Document.
Variable fs0 : gmap string (list Byte.byte).
Variable file : UploadFile.

Abbreviation upload_start := (init CONCURRENCY_LIMIT fs0 [file]).




End Upload.

(** ** The further properties on sample batches *)


Lemma gate_restored_witness :
  0 <= 1 /\
  reachable no_split 1 ∅ mixed_files mixed_end_state /\
  is_Some (gather mixed_end_state) /\
  sem_value (semaphore mixed_end_state) = 1 /\
  sem_waiters (semaphore mixed_end_state) = [].
Proof.
  assert (Hr : reachable no_split 1 ∅ mixed_files mixed_end_state).
  { apply (sample_reachable 1 mixed_files (mixed_midway ++ mixed_rest)). by vm_compute. }
  split; [lia|]. split; [exact Hr|].
  split; [eexists; vm_compute; reflexivity|].
  destruct (gate_restored no_split 1 ∅ mixed_files mixed_end_state
              (default [] (gather mixed_end_state)))
    as (Hv & Hw & _); [lia|exact Hr|by vm_compute|].
  split; [exact Hv|exact Hw].
Defined.

Lemma outcome_is_final_witness :
  let t := mkTask (mkUploadFile "a.pdf" [Byte.x25; Byte.x50])
                  (Done (Raised (HTTPException 500
                                   "Error processing a.pdf: quota exceeded")))
                  (Some (history_state no_split
                           (mkUploadFile "a.pdf" [Byte.x25; Byte.x50])
                           (HExtract sample_pages))) in
  0 <= 1 /\
  reachable no_split 1 ∅ mixed_files mixed_fail_state /\
  tasks mixed_fail_state !! 0%nat = Some t /\
  exec no_split (tail mixed_rest) mixed_fail_state = Some mixed_end_state /\
  tasks mixed_end_state !! 0%nat = Some t.
Proof.
  intros t.
  assert (Hr : reachable no_split 1 ∅ mixed_files mixed_fail_state).
  { apply (sample_reachable 1 mixed_files
             (mixed_midway ++ [Resume 0 (Fault "quota exceeded")])). by vm_compute. }
  split; [lia|]. split; [exact Hr|]. split; [by vm_compute|]. split; [by vm_compute|].
  destruct (outcome_is_final no_split 1 ∅ mixed_files mixed_fail_state mixed_end_state
              (tail mixed_rest) 0%nat t)
    as [Hkeep _]; [lia|exact Hr|by vm_compute|reflexivity|by vm_compute|].
  exact Hkeep.
Defined.




